(** * The proof-of-work difficulty engine of digitalcoin ([src/pow.cpp])

    A shallow embedding of [pow.cpp]: the minimum-work bound, the chain-work
    increment, the retarget dispatcher with its two retarget generations, and
    the proof-of-work check.  [UpdateTime], which reads the network-adjusted
    clock, is left out.

    Conventions.
    - [uint256] values are integers in [[0, 2^256)]; every operation that can
      leave that range is reduced modulo [2^256].
    - [unsigned int] compact targets are integers; the codec only reads their
      low 32 bits.
    - [int] and [int64_t] quantities are integers; [/] and [%] on them are the
      truncating [Z.quot] and [Z.rem] of C++.  Signed overflow is not
      modelled: it takes heights or parameters at the limits of [int] and
      [int64_t].
    - A [const CBlockIndex*] is the list of blocks reachable through [pprev],
      nearest first; the null pointer is the empty list.
    - Undefined or aborting behaviour of the C++ code (null dereference,
      division by zero, failed [assert], leaving a non-void function without
      [return]) is an explicit [Fault]. *)

From Stdlib Require Import ZArith List Lia Bool.
Import ListNotations.
Local Open Scope Z_scope.

(** ** Outcomes *)

Inductive fault : Type :=
| NullDereference
| DivisionByZero
| AssertionFailure
| MissingReturn.

Inductive outcome (A : Type) : Type :=
| Ret (a : A)
| Fault (f : fault).

Arguments Ret {A} a.
Arguments Fault {A} f.

Definition bind {A B : Type} (c : outcome A) (k : A -> outcome B) : outcome B :=
  match c with
  | Ret a => k a
  | Fault f => Fault f
  end.

Notation "x <- c ;; k" := (bind c (fun x => k))
  (at level 61, c at next level, right associativity).

(** [a / b] and [a % b] on signed machine integers. *)
Definition int_div (a b : Z) : outcome Z :=
  if b =? 0 then Fault DivisionByZero else Ret (Z.quot a b).

Definition int_mod (a b : Z) : outcome Z :=
  if b =? 0 then Fault DivisionByZero else Ret (Z.rem a b).

(** ** 256-bit unsigned arithmetic *)

Module UInt256.

Definition modulus : Z := 2 ^ 256.

Definition wrap (x : Z) : Z := x mod modulus.

Definition in_range (x : Z) : Prop := 0 <= x < modulus.

(** Conversion of an [int64_t] operand: through [uint64_t]. *)
Definition of_int64 (x : Z) : Z := x mod 2 ^ 64.

(** Modelled from the spec: [uint256.h] is not among the sources.  Section
    4.1 lists the operations of the 256-bit type; a sum that leaves the
    256-bit range is reduced modulo [2^256]. *)
Definition add (a b : Z) : Z := wrap (a + b).

(** Modelled from the spec: multiplication by a small (64-bit) integer of
    section 4.1 ([uint256.h] is not among the sources); a product that
    leaves the 256-bit range is reduced modulo [2^256]. *)
Definition mul (a b : Z) : Z := wrap (a * b).

(** Modelled from the spec: division by a 256-bit value of section 4.1
    ([uint256.h] is not among the sources): truncating, and fatal on a zero
    divisor. *)
Definition div (a b : Z) : outcome Z :=
  if b =? 0 then Fault DivisionByZero else Ret (a / b).

(** Modelled from the spec: bitwise complement of section 4.1 ([uint256.h]
    is not among the sources), over 256 bits. *)
Definition not (a : Z) : Z := wrap (Z.lnot a).

(** Number of significant bits. *)
Definition bits (a : Z) : Z := if a <=? 0 then 0 else Z.log2 a + 1.

End UInt256.

(** ** Compact targets *)

Record compact_decoding : Type := {
  target : Z;
  fNegative : bool;
  fOverflow : bool
}.

Definition compact_exponent (nCompact : Z) : Z :=
  Z.land (Z.shiftr nCompact 24) 0xff.

Definition compact_mantissa (nCompact : Z) : Z :=
  Z.land nCompact 0x00ffffff.

(** Modelled from the spec: [uint256::SetCompact] is not among the sources.
    Section 4.2: the exponent is the high byte and the mantissa the low three
    bytes; an exponent of at most 3 shifts the mantissa right by
    [8*(3-exponent)] bits, a larger one shifts it left by [8*(exponent-3)];
    the negative flag is bit [0x00800000] of the mantissa as stored; the
    overflow flag says that the shift moves non-zero mantissa bits above bit
    255. *)
Definition SetCompact (nCompact : Z) : compact_decoding :=
  let nSize := compact_exponent nCompact in
  let nWord := compact_mantissa nCompact in
  {| target :=
       if nSize <=? 3
       then Z.shiftr nWord (8 * (3 - nSize))
       else UInt256.wrap (Z.shiftl nWord (8 * (nSize - 3)));
     fNegative := Z.testbit nCompact 23;
     fOverflow :=
       (3 <? nSize) && (UInt256.modulus <=? Z.shiftl nWord (8 * (nSize - 3))) |}.

(** Modelled from the spec: [uint256::GetCompact] is not among the sources.
    Section 4.2: the exponent is the least number of bytes that hold the
    value, the mantissa its three leading bytes; when the top bit of the
    mantissa is set the mantissa moves right by one byte and the exponent
    grows by one. *)
Definition GetCompact (bn : Z) : Z :=
  let nSize := (UInt256.bits bn + 7) / 8 in
  let nCompact :=
    if nSize <=? 3
    then Z.shiftl bn (8 * (3 - nSize))
    else Z.shiftr bn (8 * (nSize - 3)) in
  let nCompact' := if Z.testbit nCompact 23 then Z.shiftr nCompact 8 else nCompact in
  let nSize' := if Z.testbit nCompact 23 then nSize + 1 else nSize in
  Z.lor nCompact' (Z.shiftl nSize' 24).

(** ** The block index and the chain parameters *)

(** Modelled from the spec: [CBlockIndex] is declared in [main.h], which is
    not among the sources.  Section 3 gives its read-only fields: height,
    timestamp, median-time-past, recorded compact target and recorded
    algorithm; the predecessor link is the tail of the list. *)
Record CBlockIndex : Type := {
  nHeight : Z;
  nTime : Z;
  nMedianTimePast : Z;
  nBits : Z;
  nAlgo : Z
}.

Definition block_ptr : Type := list CBlockIndex.

Definition is_null (p : block_ptr) : bool :=
  match p with
  | [] => true
  | _ :: _ => false
  end.

Definition deref (p : block_ptr) : outcome CBlockIndex :=
  match p with
  | [] => Fault NullDereference
  | b :: _ => Ret b
  end.

Definition pprev (p : block_ptr) : block_ptr := tl p.

Definition GetBlockTime (b : CBlockIndex) : Z := nTime b.

Definition GetMedianTimePast (b : CBlockIndex) : Z := nMedianTimePast b.

(** The candidate header handed to the retarget functions. *)
Record CBlockHeader : Type := {
  hdr_nTime : Z;
  hdr_nBits : Z;
  hdr_nAlgo : Z
}.

(** Modelled from the spec: the helper of [main.cpp], section 6: the nearest
    ancestor, the start block included, mined with [algo], or null. *)
Fixpoint GetLastBlockIndexForAlgo (pindex : block_ptr) (algo : Z) : block_ptr :=
  match pindex with
  | [] => []
  | b :: prev =>
      if nAlgo b =? algo then pindex else GetLastBlockIndexForAlgo prev algo
  end.

(** [for (int i = 0; p && i < n; i++) p = p->pprev;] *)
Fixpoint go_back (n : nat) (p : block_ptr) : block_ptr :=
  match n with
  | O => p
  | S k => if is_null p then p else go_back k (pprev p)
  end.

(** Modelled from the spec: [CBaseChainParams::Network], section 6, with the
    enumerators numbered in their order of declaration. *)
Inductive Network : Type := MAIN | TESTNET | REGTEST.

Definition network_value (n : Network) : Z :=
  match n with
  | MAIN => 0
  | TESTNET => 1
  | REGTEST => 2
  end.

Record CChainParams : Type := {
  NetworkID : Network;
  ProofOfWorkLimit : Z -> Z;
  TargetSpacing : Z;
  TargetTimespan : Z;
  AllowMinDifficultyBlocks : bool
}.

(** Names that [pow.cpp] uses and does not declare.  [bnLimit] is the bound
    that [CheckMinWork] reads at lines 49 and 53. *)
Record Constants : Type := {
  NUM_ALGOS : Z;
  ALGO_SCRYPT : Z;
  V3_FORK : Z;
  DIFF_SWITCH_HEIGHT : Z;
  INFLATION_FIX_HEIGHT : Z;
  DIFF2_SWITCH_HEIGHT : Z;
  bnLimit : Z
}.

(** ** The functions of [pow.cpp] *)

(** MultiAlgo target updates (lines 17-31). *)
Definition multiAlgoTargetTimespan : Z := 120.
Definition multiAlgoTargetSpacing : Z := 120.
Definition multiAlgoInterval : Z := 1.

Definition nAveragingInterval : Z := 10.
Definition nAveragingTargetTimespan : Z := nAveragingInterval * multiAlgoTargetSpacing.

Definition nMaxAdjustDown : Z := 40.
Definition nMaxAdjustUp : Z := 20.

Definition nTargetTimespanAdjDown : Z :=
  Z.quot (multiAlgoTargetTimespan * (100 + nMaxAdjustDown)) 100.
Definition nLocalDifficultyAdjustment : Z := 40.

Definition nMinActualTimespan : Z :=
  Z.quot (nAveragingTargetTimespan * (100 - nMaxAdjustUp)) 100.
Definition nMaxActualTimespan : Z :=
  Z.quot (nAveragingTargetTimespan * (100 + nMaxAdjustDown)) 100.

Section Pow.

Variable K : Constants.
Variable P : CChainParams.

(** The [while] loop of [CheckMinWork] (lines 53-59); [None] when the fuel
    does not suffice. *)
Fixpoint CheckMinWork_loop (fuel : nat) (deltaTime bnResult : Z) : option Z :=
  if (0 <? deltaTime) && (bnResult <? bnLimit K)
  then match fuel with
       | O => None
       | S fuel' =>
           CheckMinWork_loop fuel' (deltaTime - TargetTimespan P * 4)
                             (UInt256.mul bnResult 4)
       end
  else Some bnResult.

Definition CheckMinWork (fuel : nat) (nBits nBase deltaTime : Z) : option bool :=
  let bnNewBlock := target (SetCompact nBits) in
  if fOverflow (SetCompact nBits) then Some false
  else
    let bnProofOfWorkLimit := ProofOfWorkLimit P (ALGO_SCRYPT K) in
    if AllowMinDifficultyBlocks P && (TargetSpacing P * 2 <? deltaTime)
    then Some (bnNewBlock <=? bnLimit K)
    else
      match CheckMinWork_loop fuel deltaTime (target (SetCompact nBase)) with
      | None => None
      | Some bnResult =>
          let bnResult' :=
            if bnProofOfWorkLimit <? bnResult then bnProofOfWorkLimit else bnResult in
          Some (bnNewBlock <=? bnResult')
      end.

Definition GetProofIncrement (nBits : Z) : outcome Z :=
  let bnTarget := target (SetCompact nBits) in
  if fNegative (SetCompact nBits) || fOverflow (SetCompact nBits) || (bnTarget =? 0)
  then Ret 0
  else
    q <- UInt256.div (UInt256.not bnTarget) (UInt256.add bnTarget 1) ;;
    Ret (UInt256.add q 1).

(** The era parameters of the legacy retarget (lines 113-118), for the
    height [nHeight'] of the block being mined. *)
Definition V1_timespan (nHeight' : Z) : Z :=
  let fInflationFixProtocol := INFLATION_FIX_HEIGHT K <=? nHeight' in
  if fInflationFixProtocol then TargetTimespan P else TargetTimespan P * 5.

Definition V1_interval (nHeight' : Z) : outcome Z :=
  let fInflationFixProtocol := INFLATION_FIX_HEIGHT K <=? nHeight' in
  let nTargetTimespanCurrent := V1_timespan nHeight' in
  if fInflationFixProtocol
  then int_div nTargetTimespanCurrent (TargetSpacing P)
  else
    half <- int_div (TargetSpacing P) 2 ;;
    int_div nTargetTimespanCurrent half.

Definition GetNextWorkRequiredV1
    (pindexLast : block_ptr) (pblock : CBlockHeader) (algo : Z) : outcome Z :=
  let nProofOfWorkLimit := GetCompact (ProofOfWorkLimit P algo) in
  last <- deref pindexLast ;;
  let nHeight' := nHeight last + 1 in
  let fNewDifficultyProtocol := DIFF_SWITCH_HEIGHT K <=? nHeight' in
  let fDifficultySwitchHeightTwo := DIFF2_SWITCH_HEIGHT K <=? nHeight' in
  let nTargetTimespanCurrent := V1_timespan nHeight' in
  nInterval <- V1_interval nHeight' ;;
  (* Testnet Fixed Diff *)
  if network_value (NetworkID P) =? network_value TESTNET
  then Ret nProofOfWorkLimit
  (* Genesis block *)
  else if is_null pindexLast
  then Ret nProofOfWorkLimit
  else
    (* Only change once per interval *)
    r <- int_mod (nHeight last + 1) nInterval ;;
    if negb (r =? 0)
    then Ret (nBits last)
    else
      let blockstogoback :=
        if negb (nHeight last + 1 =? nInterval) then nInterval else nInterval - 1 in
      (* Go back by what we want to be the last intervals worth of blocks *)
      let pindexFirst := go_back (Z.to_nat blockstogoback) pindexLast in
      if is_null pindexFirst then Fault AssertionFailure
      else
        first <- deref pindexFirst ;;
        (* Limit adjustment step *)
        let nActualTimespan := GetBlockTime last - GetBlockTime first in
        let nActualTimespanMax :=
          if fNewDifficultyProtocol
          then nTargetTimespanCurrent * 2 else nTargetTimespanCurrent * 4 in
        let nActualTimespanMin :=
          if fNewDifficultyProtocol
          then Z.quot nTargetTimespanCurrent 2 else Z.quot nTargetTimespanCurrent 4 in
        let nActualTimespanMax :=
          if fDifficultySwitchHeightTwo
          then Z.quot (nTargetTimespanCurrent * 75) 60 else nActualTimespanMax in
        let nActualTimespanMin :=
          if fDifficultySwitchHeightTwo
          then Z.quot (nTargetTimespanCurrent * 55) 73 else nActualTimespanMin in
        let nActualTimespan :=
          if nActualTimespan <? nActualTimespanMin
          then nActualTimespanMin else nActualTimespan in
        let nActualTimespan :=
          if nActualTimespanMax <? nActualTimespan
          then nActualTimespanMax else nActualTimespan in
        (* Retarget *)
        let bnNew := target (SetCompact (nBits last)) in
        let bnNew := UInt256.mul bnNew (UInt256.of_int64 nActualTimespan) in
        bnNew <- UInt256.div bnNew (UInt256.of_int64 nTargetTimespanCurrent) ;;
        let bnNew :=
          if ProofOfWorkLimit P algo <? bnNew then ProofOfWorkLimit P algo else bnNew in
        Ret (GetCompact bnNew).

(** One step of each per-algorithm correction loop (lines 222-234). *)
Definition tighten_step (bnNew : Z) : Z :=
  UInt256.mul (bnNew / UInt256.of_int64 (100 + nLocalDifficultyAdjustment)) 100.

Definition loosen_step (bnNew : Z) : Z :=
  UInt256.mul bnNew (UInt256.of_int64 (100 + nLocalDifficultyAdjustment)) / 100.

Definition GetNextWorkRequiredV2
    (pindexLast : block_ptr) (pblock : CBlockHeader) (algo : Z) : outcome Z :=
  let nProofOfWorkLimit := GetCompact (ProofOfWorkLimit P algo) in
  (* Genesis block *)
  if is_null pindexLast then Ret nProofOfWorkLimit
  else
    (* Go back by what we want to be nAveragingInterval blocks per algo *)
    let pindexFirst :=
      go_back (Z.to_nat (NUM_ALGOS K * nAveragingInterval)) pindexLast in
    let pindexPrevAlgo := GetLastBlockIndexForAlgo pindexLast algo in
    if is_null pindexPrevAlgo || is_null pindexFirst
    then Ret nProofOfWorkLimit (* not enough blocks available *)
    else
      last <- deref pindexLast ;;
      first <- deref pindexFirst ;;
      prevAlgo <- deref pindexPrevAlgo ;;
      (* Use medians to prevent time-warp attacks *)
      let nActualTimespan := GetMedianTimePast last - GetMedianTimePast first in
      let nActualTimespan :=
        nAveragingTargetTimespan
        + Z.quot (nActualTimespan - nAveragingTargetTimespan) 6 in
      let nActualTimespan :=
        if nActualTimespan <? nMinActualTimespan
        then nMinActualTimespan else nActualTimespan in
      let nActualTimespan :=
        if nMaxActualTimespan <? nActualTimespan
        then nMaxActualTimespan else nActualTimespan in
      (* Global retarget *)
      let bnNew := target (SetCompact (nBits prevAlgo)) in
      let bnNew := UInt256.mul bnNew (UInt256.of_int64 nActualTimespan) in
      bnNew <- UInt256.div bnNew (UInt256.of_int64 nAveragingTargetTimespan) ;;
      (* Per-algo retarget *)
      let nAdjustments := nHeight prevAlgo - nHeight last + NUM_ALGOS K - 1 in
      let bnNew :=
        if 0 <? nAdjustments
        then Nat.iter (Z.to_nat nAdjustments) tighten_step bnNew else bnNew in
      let bnNew :=
        if nAdjustments <? 0
        then Nat.iter (Z.to_nat (- nAdjustments)) loosen_step bnNew else bnNew in
      let bnNew :=
        if ProofOfWorkLimit P algo <? bnNew then ProofOfWorkLimit P algo else bnNew in
      Ret (GetCompact bnNew).

(** [!x] on an enumerator: true exactly when its value is zero. *)
Definition logical_not (x : Z) : Z := Z.b2z (x =? 0).

Definition GetNextWorkRequired
    (pindexLast : block_ptr) (pblock : CBlockHeader) (algo : Z) : outcome Z :=
  last <- deref pindexLast ;;
  let nHeight' := nHeight last in
  if network_value (NetworkID P) =? network_value TESTNET
  then Ret 0x1d13ffec
  else if (logical_not (network_value (NetworkID P)) =? network_value TESTNET)
          && (nHeight' <? V3_FORK K)
  then GetNextWorkRequiredV1 pindexLast pblock algo
  else if (logical_not (network_value (NetworkID P)) =? network_value TESTNET)
          && (V3_FORK K <=? nHeight')
  then GetNextWorkRequiredV2 pindexLast pblock algo
  else Fault MissingReturn.

Definition CheckProofOfWork (hash nBits algo : Z) : bool :=
  let bnTarget := target (SetCompact nBits) in
  (* Check range *)
  if fNegative (SetCompact nBits) || (bnTarget =? 0) || fOverflow (SetCompact nBits)
     || (ProofOfWorkLimit P algo <? bnTarget)
  then false
  (* Check proof of work matches claimed amount *)
  else if bnTarget <? hash
  then false
  else true.

End Pow.

(** [UpdateTime] (lines 65-72).  [nAdjustedTime] is the value that
    [GetAdjustedTime()] returns; the header keeps its time in 32 bits, and
    [block.GetAlgo()] is the algorithm recorded in the header.  The updated
    header is the result. *)
Definition UpdateTime
    (K : Constants) (P : CChainParams) (nAdjustedTime : Z)
    (block : CBlockHeader) (pindexPrev : block_ptr) : outcome CBlockHeader :=
  prev <- deref pindexPrev ;;
  let block' :=
    {| hdr_nTime := Z.max (GetMedianTimePast prev + 1) nAdjustedTime mod 2 ^ 32;
       hdr_nBits := hdr_nBits block;
       hdr_nAlgo := hdr_nAlgo block |} in
  (* Updating time can change work required on testnet *)
  if network_value (NetworkID P) =? network_value TESTNET
  then
    nBits' <- GetNextWorkRequired K P pindexPrev block' (hdr_nAlgo block') ;;
    Ret {| hdr_nTime := hdr_nTime block';
           hdr_nBits := nBits';
           hdr_nAlgo := hdr_nAlgo block' |}
  else Ret block'.

(** ** Reference values *)

(** The claimed value of the work increment, as the expression
    [(~target / (target + 1)) + 1] over 256-bit unsigned integers. *)
Definition increment_expression (nBits : Z) : Z :=
  let bnTarget := target (SetCompact nBits) in
  if fNegative (SetCompact nBits) || fOverflow (SetCompact nBits) || (bnTarget =? 0)
  then 0
  else UInt256.add (UInt256.not bnTarget / UInt256.add bnTarget 1) 1.

(** The quotient [2^256 / (target + 1)] over the integers. *)
Definition increment_quotient (nBits : Z) : Z :=
  let bnTarget := target (SetCompact nBits) in
  if fNegative (SetCompact nBits) || fOverflow (SetCompact nBits) || (bnTarget =? 0)
  then 0
  else 2 ^ 256 / (bnTarget + 1).

(** The interval of the legacy retarget as the specification words it:
    timespan over spacing, the quotient halved below [INFLATION_FIX_HEIGHT]. *)
Definition V1_interval_halved (K : Constants) (P : CChainParams) (nHeight' : Z) : Z :=
  if nHeight' <? INFLATION_FIX_HEIGHT K
  then Z.quot (Z.quot (V1_timespan K P nHeight') (TargetSpacing P)) 2
  else Z.quot (V1_timespan K P nHeight') (TargetSpacing P).

(** ** Sample parameters and histories, for evaluation *)

Definition sample_limit : Z := 2 ^ 236 - 1.

Definition sample_constants : Constants := {|
  NUM_ALGOS := 3;
  ALGO_SCRYPT := 0;
  V3_FORK := 1000;
  DIFF_SWITCH_HEIGHT := 100;
  INFLATION_FIX_HEIGHT := 200;
  DIFF2_SWITCH_HEIGHT := 300;
  bnLimit := sample_limit
|}.

Definition sample_params (net : Network) : CChainParams := {|
  NetworkID := net;
  ProofOfWorkLimit := fun _ => sample_limit;
  TargetSpacing := 40;
  TargetTimespan := 4320;
  AllowMinDifficultyBlocks := false
|}.

Definition sample_header : CBlockHeader :=
  {| hdr_nTime := 0; hdr_nBits := 0; hdr_nAlgo := 0 |}.

Definition sample_block (h bits : Z) : CBlockIndex := {|
  nHeight := h;
  nTime := 40 * h;
  nMedianTimePast := 40 * h - 200;
  nBits := bits;
  nAlgo := h mod 3
|}.

(** [n] consecutive blocks, the nearest at height [h]. *)
Fixpoint sample_chain (n : nat) (h : Z) : block_ptr :=
  match n with
  | O => []
  | S k => sample_block h 0x1d00ffff :: sample_chain k (h - 1)
  end.

(** * Properties *)

(** ** The outcome monad *)

Lemma bind_Ret {A B : Type} (c : outcome A) (k : A -> outcome B) (b : B) :
  bind c k = Ret b -> exists a, c = Ret a /\ k a = Ret b.
Proof.
  destruct c as [a | f]; simpl; intros H.
  - exists a. split; [reflexivity | exact H].
  - discriminate H.
Qed.

Lemma Ret_inj {A : Type} (a b : A) : Ret a = Ret b -> a = b.
Proof. intros H. injection H as E. exact E. Qed.

(** ** Facts on 256-bit arithmetic *)

Lemma modulus_pos : 0 < UInt256.modulus.
Proof. reflexivity. Qed.

Lemma wrap_in_range (x : Z) : UInt256.in_range (UInt256.wrap x).
Proof.
  unfold UInt256.in_range, UInt256.wrap.
  apply Z.mod_pos_bound. exact modulus_pos.
Qed.

Lemma wrap_small (x : Z) : UInt256.in_range x -> UInt256.wrap x = x.
Proof.
  unfold UInt256.in_range, UInt256.wrap. intros H.
  apply Z.mod_small. exact H.
Qed.

Lemma wrap_le (x : Z) : 0 <= x -> UInt256.wrap x <= x.
Proof.
  intros H. unfold UInt256.wrap.
  apply Z.mod_le; [exact H | exact modulus_pos].
Qed.

(** Rounding down to a multiple of a power of two does not grow a value. *)
Lemma round_down_le (x k : Z) : 0 <= x -> 0 <= k -> 0 <= x / 2 ^ k * 2 ^ k <= x.
Proof.
  intros Hx Hk.
  assert (Hp : 0 < 2 ^ k) by (apply Z.pow_pos_nonneg; lia).
  split.
  - apply Z.mul_nonneg_nonneg; [apply Z.div_pos; lia | lia].
  - rewrite Z.mul_comm. apply Z.mul_div_le. exact Hp.
Qed.

(** ** Facts on the compact codec *)

Lemma byte_size_bounds (x : Z) :
  0 < x ->
  1 <= (UInt256.bits x + 7) / 8 /\
  2 ^ (8 * ((UInt256.bits x + 7) / 8 - 1)) <= x < 2 ^ (8 * ((UInt256.bits x + 7) / 8)).
Proof.
  intros Hx. unfold UInt256.bits.
  destruct (Z.leb_spec x 0) as [Hle | _]; [lia |].
  pose proof (Z.log2_nonneg x) as HL.
  pose proof (Z.log2_spec x Hx) as [Hlo Hhi].
  set (L := Z.log2 x) in *.
  set (n := (L + 1 + 7) / 8).
  assert (Hn : 8 * n <= L + 8 < 8 * n + 8).
  { unfold n. pose proof (Z.div_mod (L + 1 + 7) 8 ltac:(lia)) as E.
    pose proof (Z.mod_pos_bound (L + 1 + 7) 8 ltac:(lia)). lia. }
  split; [lia |]. split.
  - apply Z.le_trans with (2 ^ L); [| exact Hlo].
    apply Z.pow_le_mono_r; lia.
  - apply Z.lt_le_trans with (2 ^ Z.succ L); [exact Hhi |].
    apply Z.pow_le_mono_r; lia.
Qed.

Lemma byte_size_zero : (UInt256.bits 0 + 7) / 8 = 0.
Proof. reflexivity. Qed.

Lemma byte_size_le_32 (x : Z) :
  UInt256.in_range x -> 0 <= (UInt256.bits x + 7) / 8 <= 32.
Proof.
  intros [Hlo Hhi]. unfold UInt256.modulus in Hhi.
  destruct (Z.eq_dec x 0) as [-> | Hne]; [rewrite byte_size_zero; lia |].
  destruct (byte_size_bounds x ltac:(lia)) as (H1 & H2 & _).
  split; [lia |].
  destruct (Z_le_gt_dec ((UInt256.bits x + 7) / 8) 32) as [H | H]; [exact H |].
  exfalso.
  assert (2 ^ 256 <= 2 ^ (8 * ((UInt256.bits x + 7) / 8 - 1)))
    by (apply Z.pow_le_mono_r; lia).
  lia.
Qed.

Lemma testbit_above (m i : Z) : 0 <= m < 2 ^ 24 -> 24 <= i -> Z.testbit m i = false.
Proof.
  intros [Hlo Hhi] Hi.
  destruct (Z.eq_dec m 0) as [-> | Hne]; [apply Z.bits_0 |].
  apply Z.bits_above_log2; [exact Hlo |].
  apply Z.lt_le_trans with 24; [| exact Hi].
  apply Z.log2_lt_pow2; lia.
Qed.

Lemma pack_as_sum (m n : Z) :
  0 <= m < 2 ^ 24 -> Z.lor m (Z.shiftl n 24) = m + n * 2 ^ 24.
Proof.
  intros Hm.
  assert (Hland : Z.land m (Z.shiftl n 24) = 0).
  { apply Z.bits_inj'. intros i Hi.
    rewrite Z.land_spec, Z.bits_0.
    destruct (Z_lt_ge_dec i 24) as [Hlt | Hge].
    - rewrite Z.shiftl_spec_low by exact Hlt. apply andb_false_r.
    - rewrite (testbit_above m i Hm) by lia. reflexivity. }
  pose proof (Z.add_lor_land m (Z.shiftl n 24)) as E.
  rewrite Hland in E. rewrite Z.shiftl_mul_pow2 in * by lia. lia.
Qed.

Lemma compact_exponent_pack (m n : Z) :
  0 <= m < 2 ^ 24 -> 0 <= n < 256 ->
  compact_exponent (Z.lor m (Z.shiftl n 24)) = n.
Proof.
  intros Hm Hn. unfold compact_exponent.
  rewrite pack_as_sum by exact Hm.
  change 0xff with (Z.ones 8).
  rewrite Z.land_ones, Z.shiftr_div_pow2 by lia.
  rewrite Z.div_add by lia.
  rewrite Z.div_small by exact Hm.
  apply Z.mod_small. simpl. lia.
Qed.

Lemma compact_mantissa_pack (m n : Z) :
  0 <= m < 2 ^ 24 -> compact_mantissa (Z.lor m (Z.shiftl n 24)) = m.
Proof.
  intros Hm. unfold compact_mantissa.
  rewrite pack_as_sum by exact Hm.
  change 0x00ffffff with (Z.ones 24).
  rewrite Z.land_ones by lia.
  rewrite Z.mod_add by lia.
  apply Z.mod_small. exact Hm.
Qed.

Lemma SetCompact_target (nCompact : Z) :
  target (SetCompact nCompact) =
  if compact_exponent nCompact <=? 3
  then Z.shiftr (compact_mantissa nCompact) (8 * (3 - compact_exponent nCompact))
  else UInt256.wrap (Z.shiftl (compact_mantissa nCompact)
                              (8 * (compact_exponent nCompact - 3))).
Proof. reflexivity. Qed.

Lemma SetCompact_fOverflow (nCompact : Z) :
  fOverflow (SetCompact nCompact) =
  (3 <? compact_exponent nCompact)
  && (UInt256.modulus <=? Z.shiftl (compact_mantissa nCompact)
                                   (8 * (compact_exponent nCompact - 3))).
Proof. reflexivity. Qed.

Lemma target_pack (m n : Z) :
  0 <= m < 2 ^ 24 -> 0 <= n < 256 ->
  target (SetCompact (Z.lor m (Z.shiftl n 24))) =
  if n <=? 3 then m / 2 ^ (8 * (3 - n)) else UInt256.wrap (m * 2 ^ (8 * (n - 3))).
Proof.
  intros Hm Hn. rewrite SetCompact_target.
  rewrite compact_exponent_pack, compact_mantissa_pack by assumption.
  destruct (Z.leb_spec n 3) as [Hle | Hgt].
  - apply Z.shiftr_div_pow2. lia.
  - f_equal. apply Z.shiftl_mul_pow2. lia.
Qed.

(** The three leading bytes of a value, as [GetCompact] extracts them. *)
Lemma leading_bytes_range (x n : Z) :
  0 <= x < 2 ^ (8 * n) -> 0 <= n ->
  0 <= (if n <=? 3 then Z.shiftl x (8 * (3 - n)) else Z.shiftr x (8 * (n - 3))) < 2 ^ 24.
Proof.
  intros [Hlo Hhi] Hn.
  destruct (Z.leb_spec n 3) as [Hle | Hgt].
  - rewrite Z.shiftl_mul_pow2 by lia.
    assert (Hp : 0 < 2 ^ (8 * (3 - n))) by (apply Z.pow_pos_nonneg; lia).
    split; [apply Z.mul_nonneg_nonneg; lia |].
    replace (2 ^ 24) with (2 ^ (8 * n) * 2 ^ (8 * (3 - n))).
    + apply Z.mul_lt_mono_pos_r; assumption.
    + rewrite <- Z.pow_add_r by lia. f_equal. lia.
  - rewrite Z.shiftr_div_pow2 by lia.
    assert (Hp : 0 < 2 ^ (8 * (n - 3))) by (apply Z.pow_pos_nonneg; lia).
    split; [apply Z.div_pos; lia |].
    apply Z.div_lt_upper_bound; [exact Hp |].
    rewrite <- Z.pow_add_r by lia.
    replace (8 * (n - 3) + 24) with (8 * n) by lia. exact Hhi.
Qed.

Lemma byte_size_upper (x : Z) : 0 <= x -> x < 2 ^ (8 * ((UInt256.bits x + 7) / 8)).
Proof.
  intros Hx. destruct (Z.eq_dec x 0) as [-> | Hne].
  - rewrite byte_size_zero. reflexivity.
  - apply byte_size_bounds. lia.
Qed.

(** The example of the specification: [0x1d00ffff] decodes to [0xffff]
    shifted left by 208 bits, neither negative nor overflowed, and that
    target encodes back to [0x1d00ffff]. *)
Lemma SetCompact_example :
  target (SetCompact 0x1d00ffff) = 0xffff * 2 ^ 208
  /\ fNegative (SetCompact 0x1d00ffff) = false
  /\ fOverflow (SetCompact 0x1d00ffff) = false
  /\ GetCompact (0xffff * 2 ^ 208) = 0x1d00ffff.
Proof. vm_compute. repeat split. Qed.

(** Decoding an encoded target never yields more than the target. *)
Lemma SetCompact_GetCompact_le (x : Z) :
  UInt256.in_range x -> 0 <= target (SetCompact (GetCompact x)) <= x.
Proof.
  intros Hx. pose proof Hx as [Hx0 Hx1].
  pose proof (byte_size_le_32 x Hx) as Hn.
  pose proof (byte_size_upper x Hx0) as Hup.
  unfold GetCompact.
  set (n := (UInt256.bits x + 7) / 8) in *.
  pose proof (leading_bytes_range x n (conj Hx0 Hup) (proj1 Hn)) as Hc.
  set (c := if n <=? 3 then Z.shiftl x (8 * (3 - n)) else Z.shiftr x (8 * (n - 3))) in *.
  destruct (Z.testbit c 23).
  - (* the mantissa moves right by one byte *)
    assert (Hc' : 0 <= Z.shiftr c 8 < 2 ^ 24).
    { rewrite Z.shiftr_div_pow2 by lia. split; [apply Z.div_pos; lia |].
      apply Z.div_lt_upper_bound; lia. }
    rewrite target_pack by (assumption || lia).
    rewrite Z.shiftr_div_pow2 by lia. subst c.
    destruct (Z.leb_spec n 3) as [Hle | Hgt].
    + rewrite Z.shiftl_mul_pow2 by lia.
      destruct (Z.leb_spec (n + 1) 3) as [Hle' | Hgt'].
      * rewrite Z.div_div by (try apply Z.pow_pos_nonneg; lia).
        rewrite <- Z.pow_add_r by lia.
        replace (8 + 8 * (3 - (n + 1))) with (8 * (3 - n)) by lia.
        rewrite Z.div_mul by (apply Z.pow_nonzero; lia). lia.
      * assert (n = 3) as -> by lia.
        change (8 * (3 - 3)) with 0. change (8 * (3 + 1 - 3)) with 8.
        rewrite Z.pow_0_r, Z.mul_1_r.
        pose proof (round_down_le x 8 Hx0 ltac:(lia)) as Hr.
        rewrite wrap_small by (unfold UInt256.in_range; lia). exact Hr.
    + destruct (Z.leb_spec (n + 1) 3) as [Hle' | _]; [lia |].
      rewrite Z.shiftr_div_pow2 by lia.
      rewrite Z.div_div by (try apply Z.pow_pos_nonneg; lia).
      rewrite <- Z.pow_add_r by lia.
      replace (8 * (n - 3) + 8) with (8 * (n + 1 - 3)) by lia.
      pose proof (round_down_le x (8 * (n + 1 - 3)) Hx0 ltac:(lia)) as Hr.
      rewrite wrap_small by (unfold UInt256.in_range; lia). exact Hr.
  - rewrite target_pack by (assumption || lia). subst c.
    destruct (Z.leb_spec n 3) as [Hle | Hgt].
    + rewrite Z.shiftl_mul_pow2 by lia.
      rewrite Z.div_mul by (apply Z.pow_nonzero; lia). lia.
    + rewrite Z.shiftr_div_pow2 by lia.
      pose proof (round_down_le x (8 * (n - 3)) Hx0 ltac:(lia)) as Hr.
      rewrite wrap_small by (unfold UInt256.in_range; lia). exact Hr.
Qed.

Lemma compact_exponent_range (nCompact : Z) : 0 <= compact_exponent nCompact < 256.
Proof.
  unfold compact_exponent. change 0xff with (Z.ones 8).
  rewrite Z.land_ones by lia. apply Z.mod_pos_bound. reflexivity.
Qed.

Lemma compact_mantissa_range (nCompact : Z) : 0 <= compact_mantissa nCompact < 2 ^ 24.
Proof.
  unfold compact_mantissa. change 0x00ffffff with (Z.ones 24).
  rewrite Z.land_ones by lia. apply Z.mod_pos_bound. reflexivity.
Qed.

(** A decoded target is a 256-bit value, and never the all-ones value. *)
Lemma SetCompact_target_bound (nCompact : Z) :
  0 <= target (SetCompact nCompact) < UInt256.modulus - 1.
Proof.
  rewrite SetCompact_target.
  pose proof (compact_exponent_range nCompact) as He.
  pose proof (compact_mantissa_range nCompact) as Hm.
  set (e := compact_exponent nCompact) in *.
  set (m := compact_mantissa nCompact) in *.
  destruct (Z.leb_spec e 3) as [Hle | Hgt].
  - rewrite Z.shiftr_div_pow2 by lia.
    assert (Hp : 0 < 2 ^ (8 * (3 - e))) by (apply Z.pow_pos_nonneg; lia).
    split; [apply Z.div_pos; lia |].
    apply Z.le_lt_trans with m.
    + apply Z.div_le_upper_bound; [exact Hp |]. nia.
    + unfold UInt256.modulus. lia.
  - rewrite Z.shiftl_mul_pow2 by lia.
    pose proof (wrap_in_range (m * 2 ^ (8 * (e - 3)))) as [Hlo Hhi].
    split; [exact Hlo |].
    assert (Hdiv : UInt256.wrap (m * 2 ^ (8 * (e - 3))) mod 256 = 0).
    { unfold UInt256.wrap.
      rewrite Z.mod_mod_divide by (exists (2 ^ 248); reflexivity).
      replace (8 * (e - 3)) with (8 * (e - 4) + 8) by lia.
      rewrite Z.pow_add_r by lia.
      change (2 ^ 8) with 256. rewrite Z.mul_assoc.
      apply Z.mod_mul. lia. }
    set (w := UInt256.wrap (m * 2 ^ (8 * (e - 3)))) in *. clearbody w.
    unfold UInt256.modulus in *.
    assert (Hne : w <> 2 ^ 256 - 1).
    { intros ->. vm_compute in Hdiv. discriminate Hdiv. }
    lia.
Qed.

Lemma uint256_not_value (a : Z) :
  UInt256.in_range a -> UInt256.not a = UInt256.modulus - 1 - a.
Proof.
  unfold UInt256.in_range, UInt256.not, UInt256.wrap. intros Ha.
  symmetry. apply Z.mod_unique with (-1); [left | unfold Z.lnot]; lia.
Qed.

(** The complement trick of [GetProofIncrement]: over 256-bit values,
    [~t / (t + 1) + 1] is the quotient of [2^256] by [t + 1]. *)
Lemma complement_quotient (t : Z) :
  1 <= t < UInt256.modulus - 1 ->
  UInt256.add t 1 = t + 1 /\
  UInt256.add (UInt256.not t / UInt256.add t 1) 1 = 2 ^ 256 / (t + 1).
Proof.
  intros Ht.
  assert (Hadd : UInt256.add t 1 = t + 1).
  { unfold UInt256.add. apply wrap_small. unfold UInt256.in_range. lia. }
  split; [exact Hadd |].
  rewrite Hadd, uint256_not_value by (unfold UInt256.in_range; lia).
  assert (Hq : 2 ^ 256 / (t + 1) = (UInt256.modulus - 1 - t) / (t + 1) + 1).
  { rewrite <- Z.div_add by lia. f_equal. unfold UInt256.modulus. lia. }
  rewrite Hq. unfold UInt256.add. apply wrap_small.
  rewrite <- Hq. unfold UInt256.in_range, UInt256.modulus.
  split; [apply Z.div_pos; lia |].
  apply Z.div_lt; lia.
Qed.

Lemma GetProofIncrement_expression (nBits : Z) :
  GetProofIncrement nBits = Ret (increment_expression nBits).
Proof.
  unfold GetProofIncrement, increment_expression.
  pose proof (SetCompact_target_bound nBits) as Hb.
  set (t := target (SetCompact nBits)) in *.
  destruct (fNegative (SetCompact nBits) || fOverflow (SetCompact nBits) || (t =? 0))
    eqn:Hinv; [reflexivity |].
  apply orb_false_iff in Hinv. destruct Hinv as [_ Hz].
  apply Z.eqb_neq in Hz.
  destruct (complement_quotient t ltac:(lia)) as [Hadd _].
  unfold UInt256.div. rewrite Hadd.
  destruct (Z.eqb_spec (t + 1) 0) as [E | _]; [lia | reflexivity].
Qed.

Lemma increment_expression_quotient (nBits : Z) :
  increment_expression nBits = increment_quotient nBits.
Proof.
  unfold increment_expression, increment_quotient.
  pose proof (SetCompact_target_bound nBits) as Hb.
  set (t := target (SetCompact nBits)) in *.
  destruct (fNegative (SetCompact nBits) || fOverflow (SetCompact nBits) || (t =? 0))
    eqn:Hinv; [reflexivity |].
  apply orb_false_iff in Hinv. destruct Hinv as [_ Hz].
  apply Z.eqb_neq in Hz.
  apply complement_quotient. lia.
Qed.

(** C8: [GetProofIncrement] returns 0 for a negative, overflowed or zero
    target, and otherwise exactly [(~target / (target + 1)) + 1] in 256-bit
    unsigned arithmetic, which is the integer quotient [2^256 / (target + 1)]. *)
Theorem GetProofIncrement_spec (nBits : Z) :
  GetProofIncrement nBits = Ret (increment_expression nBits)
  /\ increment_expression nBits = increment_quotient nBits.
Proof.
  split.
  - apply GetProofIncrement_expression.
  - apply increment_expression_quotient.
Qed.

(** ** The proof-of-work check *)

Lemma CheckProofOfWork_true_iff (P : CChainParams) (hash nBits algo : Z) :
  CheckProofOfWork P hash nBits algo = true <->
  fNegative (SetCompact nBits) = false
  /\ fOverflow (SetCompact nBits) = false
  /\ target (SetCompact nBits) <> 0
  /\ target (SetCompact nBits) <= ProofOfWorkLimit P algo
  /\ hash <= target (SetCompact nBits).
Proof.
  unfold CheckProofOfWork.
  destruct (fNegative (SetCompact nBits)) eqn:Hneg,
           (fOverflow (SetCompact nBits)) eqn:Hovf,
           (target (SetCompact nBits) =? 0) eqn:Hzero,
           (ProofOfWorkLimit P algo <? target (SetCompact nBits)) eqn:Hlim,
           (target (SetCompact nBits) <? hash) eqn:Hhash;
    cbn [orb];
    rewrite ?Z.eqb_eq, ?Z.eqb_neq, ?Z.ltb_lt, ?Z.ltb_ge in *;
    (split;
     [ intros X; try discriminate X; repeat split; (congruence || lia)
     | intros (X1 & X2 & X3 & X4 & X5);
       try reflexivity; try discriminate; try lia ]).
Qed.

(** C1: [CheckProofOfWork] accepts exactly when the decoded target is not
    negative, not overflowed, not zero, not above the ceiling of the
    algorithm, and the hash is at most the target; it rejects otherwise. *)
Theorem CheckProofOfWork_spec (P : CChainParams) (hash nBits algo : Z) :
  let d := SetCompact nBits in
  let accepted :=
    fNegative d = false /\ fOverflow d = false /\ target d <> 0
    /\ target d <= ProofOfWorkLimit P algo /\ hash <= target d in
  (CheckProofOfWork P hash nBits algo = true <-> accepted)
  /\ (CheckProofOfWork P hash nBits algo = false <-> ~ accepted).
Proof.
  intros d accepted.
  pose proof (CheckProofOfWork_true_iff P hash nBits algo) as Hiff.
  fold d in Hiff. fold accepted in Hiff.
  split; [exact Hiff |].
  rewrite <- Hiff.
  destruct (CheckProofOfWork P hash nBits algo).
  - split; [discriminate | intros X; exfalso; apply X; reflexivity].
  - split; [intros _ X; discriminate X | reflexivity].
Qed.

(** The example of the specification: a zero hash at [0x1d00ffff] passes
    under any ceiling that admits that target. *)
Lemma CheckProofOfWork_zero_hash (P : CChainParams) (algo : Z) :
  target (SetCompact 0x1d00ffff) <= ProofOfWorkLimit P algo ->
  CheckProofOfWork P 0 0x1d00ffff algo = true.
Proof.
  intros H. apply CheckProofOfWork_true_iff.
  repeat split; try exact H; vm_compute; congruence.
Qed.

(** ** The retarget dispatcher *)

Lemma network_value_inj (n m : Network) : network_value n = network_value m -> n = m.
Proof. destruct n, m; intros E; (reflexivity || discriminate E). Qed.

Lemma GetNextWorkRequired_testnet
    (K : Constants) (P : CChainParams) (b : CBlockIndex) (rest : block_ptr)
    (pblock : CBlockHeader) (algo : Z) :
  NetworkID P = TESTNET ->
  GetNextWorkRequired K P (b :: rest) pblock algo = Ret 0x1d13ffec.
Proof.
  intros Hnet. unfold GetNextWorkRequired. cbn [deref bind].
  rewrite Hnet. reflexivity.
Qed.

Lemma GetNextWorkRequired_main
    (K : Constants) (P : CChainParams) (b : CBlockIndex) (rest : block_ptr)
    (pblock : CBlockHeader) (algo : Z) :
  NetworkID P = MAIN ->
  GetNextWorkRequired K P (b :: rest) pblock algo =
  if nHeight b <? V3_FORK K
  then GetNextWorkRequiredV1 K P (b :: rest) pblock algo
  else GetNextWorkRequiredV2 K P (b :: rest) pblock algo.
Proof.
  intros Hnet. unfold GetNextWorkRequired. cbn [deref bind].
  rewrite Hnet. cbn [network_value]. unfold logical_not.
  change (0 =? 1) with false. change (Z.b2z (0 =? 0) =? 1) with true.
  cbn [andb].
  destruct (Z.ltb_spec (nHeight b) (V3_FORK K)) as [Hlt | Hge]; [reflexivity |].
  destruct (Z.leb_spec (V3_FORK K) (nHeight b)) as [_ | Hlt]; [reflexivity | lia].
Qed.

Lemma GetNextWorkRequired_other_network
    (K : Constants) (P : CChainParams) (b : CBlockIndex) (rest : block_ptr)
    (pblock : CBlockHeader) (algo : Z) :
  NetworkID P = REGTEST ->
  GetNextWorkRequired K P (b :: rest) pblock algo = Fault MissingReturn.
Proof.
  intros Hnet. unfold GetNextWorkRequired. cbn [deref bind].
  rewrite Hnet. reflexivity.
Qed.

(** C2: on the regression-test network, which is neither the test network
    nor the main one, none of the three branches of [GetNextWorkRequired] is
    taken: both guards [!NetworkID() == TESTNET] compare the negation of the
    network with [TESTNET] and are false, and control leaves the function
    without a return value. *)
Theorem GetNextWorkRequired_regtest_falls_through :
  GetNextWorkRequired sample_constants (sample_params REGTEST)
    (sample_chain 1 10) sample_header 0 = Fault MissingReturn.
Proof.
  apply GetNextWorkRequired_other_network. reflexivity.
Qed.

(** C3: with a null previous block the dispatcher and the legacy retarget
    read [pindexLast->nHeight] before any null test; only the averaged
    retarget tests the pointer first and returns the ceiling. *)
Theorem genesis_null_previous_block
    (K : Constants) (P : CChainParams) (pblock : CBlockHeader) (algo : Z) :
  GetNextWorkRequired K P [] pblock algo = Fault NullDereference
  /\ GetNextWorkRequiredV1 K P [] pblock algo = Fault NullDereference
  /\ GetNextWorkRequiredV2 K P [] pblock algo =
     Ret (GetCompact (ProofOfWorkLimit P algo)).
Proof.
  repeat split.
Qed.

(** ** The chain-work increment *)

Lemma increment_quotient_valid (nBits : Z) :
  fNegative (SetCompact nBits) = false ->
  fOverflow (SetCompact nBits) = false ->
  target (SetCompact nBits) <> 0 ->
  GetProofIncrement nBits = Ret (2 ^ 256 / (target (SetCompact nBits) + 1)).
Proof.
  intros Hneg Hovf Hz.
  rewrite GetProofIncrement_expression, increment_expression_quotient.
  unfold increment_quotient. rewrite Hneg, Hovf. cbn [orb].
  apply Z.eqb_neq in Hz. rewrite Hz. reflexivity.
Qed.

(** C9: between two compact targets that decode, without negative or
    overflow flag, to nonzero targets, the larger target has the smaller
    (or equal) work increment. *)
Theorem GetProofIncrement_monotone (nBits1 nBits2 : Z) :
  fNegative (SetCompact nBits1) = false ->
  fOverflow (SetCompact nBits1) = false ->
  target (SetCompact nBits1) <> 0 ->
  fNegative (SetCompact nBits2) = false ->
  fOverflow (SetCompact nBits2) = false ->
  target (SetCompact nBits2) <> 0 ->
  target (SetCompact nBits1) <= target (SetCompact nBits2) ->
  exists w1 w2 : Z,
    GetProofIncrement nBits1 = Ret w1 /\ GetProofIncrement nBits2 = Ret w2 /\ w2 <= w1.
Proof.
  intros Hn1 Ho1 Hz1 Hn2 Ho2 Hz2 Hle.
  exists (2 ^ 256 / (target (SetCompact nBits1) + 1)),
         (2 ^ 256 / (target (SetCompact nBits2) + 1)).
  split; [apply increment_quotient_valid; assumption |].
  split; [apply increment_quotient_valid; assumption |].
  pose proof (SetCompact_target_bound nBits1) as [Hlo _].
  apply Z.div_le_compat_l; lia.
Qed.

Lemma GetProofIncrement_monotone_witness :
  exists w1 w2 : Z,
    GetProofIncrement 0x1c00ffff = Ret w1 /\ GetProofIncrement 0x1d00ffff = Ret w2
    /\ w2 <= w1.
Proof.
  apply (GetProofIncrement_monotone 0x1c00ffff 0x1d00ffff);
    vm_compute; congruence.
Defined.

(** C10: a compact target that decodes, without negative or overflow flag,
    to a nonzero target has a work increment of at least 1, so adding it
    strictly increases any accumulated chain work. *)
Theorem GetProofIncrement_positive (nBits : Z) :
  fNegative (SetCompact nBits) = false ->
  fOverflow (SetCompact nBits) = false ->
  target (SetCompact nBits) <> 0 ->
  exists w : Z,
    GetProofIncrement nBits = Ret w /\ 1 <= w
    /\ forall nChainWork : Z, nChainWork < nChainWork + w.
Proof.
  intros Hneg Hovf Hz.
  exists (2 ^ 256 / (target (SetCompact nBits) + 1)).
  split; [apply increment_quotient_valid; assumption |].
  pose proof (SetCompact_target_bound nBits) as [Hlo Hhi].
  unfold UInt256.modulus in Hhi.
  assert (Hpos : 0 < 2 ^ 256 / (target (SetCompact nBits) + 1))
    by (apply Z.div_str_pos; lia).
  split; [| intros nChainWork]; lia.
Qed.

Lemma GetProofIncrement_positive_witness :
  exists w : Z,
    GetProofIncrement 0x1d00ffff = Ret w /\ 1 <= w
    /\ forall nChainWork : Z, nChainWork < nChainWork + w.
Proof.
  apply (GetProofIncrement_positive 0x1d00ffff); vm_compute; congruence.
Defined.

(** ** The minimum-work bound *)

Lemma CheckMinWork_loop_zero
    (K : Constants) (P : CChainParams) (fuel : nat) (bnResult : Z) :
  CheckMinWork_loop K P fuel 0 bnResult = Some bnResult.
Proof. destruct fuel; reflexivity. Qed.

(** With a positive timespan the loop of [CheckMinWork] ends within
    [deltaTime] rounds. *)
Lemma CheckMinWork_loop_terminates
    (K : Constants) (P : CChainParams) (fuel : nat) (deltaTime bnResult : Z) :
  0 < TargetTimespan P ->
  deltaTime <= Z.of_nat fuel ->
  exists r : Z, CheckMinWork_loop K P fuel deltaTime bnResult = Some r.
Proof.
  intros Hts. revert deltaTime bnResult.
  induction fuel as [| fuel IH]; intros deltaTime bnResult Hfuel.
  - cbn [CheckMinWork_loop].
    destruct (Z.ltb_spec 0 deltaTime) as [Hpos | _]; [lia |].
    exists bnResult. reflexivity.
  - cbn [CheckMinWork_loop].
    destruct ((0 <? deltaTime) && (bnResult <? bnLimit K)).
    + apply IH. lia.
    + exists bnResult. reflexivity.
Qed.

(** C7, as the code has it: with [deltaTime = 0] and no minimum-difficulty
    relaxation, [CheckMinWork] accepts a compact target that decodes without
    overflow exactly when its target is at most the base target and at most
    the scrypt ceiling, to which the base bound is clamped. *)
Theorem CheckMinWork_zero_delta
    (K : Constants) (P : CChainParams) (fuel : nat) (nBits nBase : Z) :
  fOverflow (SetCompact nBits) = false ->
  AllowMinDifficultyBlocks P = false ->
  exists b : bool,
    CheckMinWork K P fuel nBits nBase 0 = Some b
    /\ (b = true <->
        target (SetCompact nBits) <= target (SetCompact nBase)
        /\ target (SetCompact nBits) <= ProofOfWorkLimit P (ALGO_SCRYPT K)).
Proof.
  intros Hovf Hallow.
  unfold CheckMinWork. rewrite Hovf, Hallow. cbn [andb].
  rewrite CheckMinWork_loop_zero.
  eexists. split; [reflexivity |].
  rewrite Z.leb_le.
  destruct (Z.ltb_spec (ProofOfWorkLimit P (ALGO_SCRYPT K)) (target (SetCompact nBase)));
    lia.
Qed.

Lemma CheckMinWork_zero_delta_witness :
  exists b : bool,
    CheckMinWork sample_constants (sample_params MAIN) 0 0x1c00ffff 0x1d00ffff 0 = Some b
    /\ (b = true <->
        target (SetCompact 0x1c00ffff) <= target (SetCompact 0x1d00ffff)
        /\ target (SetCompact 0x1c00ffff)
           <= ProofOfWorkLimit (sample_params MAIN) (ALGO_SCRYPT sample_constants)).
Proof.
  apply (CheckMinWork_zero_delta sample_constants (sample_params MAIN) 0
           0x1c00ffff 0x1d00ffff); reflexivity.
Defined.

(** The equivalence of the specification holds when the base target is
    itself within the ceiling. *)
Lemma CheckMinWork_zero_delta_base_within_ceiling
    (K : Constants) (P : CChainParams) (fuel : nat) (nBits nBase : Z) :
  fOverflow (SetCompact nBits) = false ->
  AllowMinDifficultyBlocks P = false ->
  target (SetCompact nBase) <= ProofOfWorkLimit P (ALGO_SCRYPT K) ->
  CheckMinWork K P fuel nBits nBase 0 =
  Some (target (SetCompact nBits) <=? target (SetCompact nBase)).
Proof.
  intros Hovf Hallow Hbase.
  unfold CheckMinWork. rewrite Hovf, Hallow. cbn [andb].
  rewrite CheckMinWork_loop_zero.
  destruct (Z.ltb_spec (ProofOfWorkLimit P (ALGO_SCRYPT K)) (target (SetCompact nBase)));
    [lia | reflexivity].
Qed.

(** C7, as stated, fails when the base target lies above the ceiling: the
    claimed target [0x1f00ffff] is below the base target [0x2000ffff], both
    decode without overflow, and the code rejects. *)
Lemma CheckMinWork_zero_delta_counterexample :
  fOverflow (SetCompact 0x1f00ffff) = false
  /\ fOverflow (SetCompact 0x2000ffff) = false
  /\ AllowMinDifficultyBlocks (sample_params MAIN) = false
  /\ ~ (CheckMinWork sample_constants (sample_params MAIN) 0 0x1f00ffff 0x2000ffff 0
        = Some true
        <-> target (SetCompact 0x1f00ffff) <= target (SetCompact 0x2000ffff)).
Proof.
  repeat split; try reflexivity.
  intros [_ H].
  assert (Hle : target (SetCompact 0x1f00ffff) <= target (SetCompact 0x2000ffff))
    by (vm_compute; discriminate).
  specialize (H Hle). vm_compute in H. discriminate H.
Qed.

(** ** Walking the block index *)

Lemma go_back_null (n : nat) (p : block_ptr) :
  is_null (go_back n p) = true <-> (length p <= n)%nat.
Proof.
  revert p. induction n as [| n IH]; intros p.
  - destruct p; cbn; split; intros H; (reflexivity || discriminate || lia).
  - destruct p as [| b rest].
    + cbn. split; intros _; (reflexivity || lia).
    + cbn [go_back is_null pprev tl length]. rewrite IH. lia.
Qed.

Lemma GetLastBlockIndexForAlgo_null (p : block_ptr) (algo : Z) :
  (forall b, In b p -> nAlgo b <> algo) ->
  GetLastBlockIndexForAlgo p algo = [].
Proof.
  induction p as [| b rest IH]; intros Hnone; [reflexivity |].
  cbn [GetLastBlockIndexForAlgo].
  destruct (Z.eqb_spec (nAlgo b) algo) as [E | _].
  - exfalso. apply (Hnone b); [left; reflexivity | exact E].
  - apply IH. intros b' Hin. apply Hnone. right. exact Hin.
Qed.

(** ** The era parameters of the legacy retarget *)

(** C6, as the code has it: the timespan is five times the base timespan
    below [INFLATION_FIX_HEIGHT] and the base timespan from there on; the
    interval is the timespan over the spacing from [INFLATION_FIX_HEIGHT] on
    and the timespan over half the spacing below it. *)
Theorem V1_era_parameters (K : Constants) (P : CChainParams) (nHeight' : Z) :
  2 <= TargetSpacing P ->
  V1_timespan K P nHeight' =
    (if nHeight' <? INFLATION_FIX_HEIGHT K
     then TargetTimespan P * 5 else TargetTimespan P)
  /\ V1_interval K P nHeight' =
     Ret (if nHeight' <? INFLATION_FIX_HEIGHT K
          then Z.quot (TargetTimespan P * 5) (Z.quot (TargetSpacing P) 2)
          else Z.quot (TargetTimespan P) (TargetSpacing P)).
Proof.
  intros Hsp.
  unfold V1_interval, V1_timespan, int_div.
  rewrite (Z.leb_antisym nHeight' (INFLATION_FIX_HEIGHT K)).
  destruct (nHeight' <? INFLATION_FIX_HEIGHT K); cbn [negb].
  - split; [reflexivity |].
    change (2 =? 0) with false. cbn [bind].
    assert (Hhalf : 0 < Z.quot (TargetSpacing P) 2)
      by (apply Z.quot_str_pos; lia).
    destruct (Z.eqb_spec (Z.quot (TargetSpacing P) 2) 0) as [E | _];
      [lia | reflexivity].
  - split; [reflexivity |].
    destruct (Z.eqb_spec (TargetSpacing P) 0) as [E | _]; [lia | reflexivity].
Qed.

Lemma V1_era_parameters_witness :
  V1_timespan sample_constants (sample_params MAIN) 10 = 21600
  /\ V1_interval sample_constants (sample_params MAIN) 10 = Ret 1080.
Proof.
  apply (V1_era_parameters sample_constants (sample_params MAIN) 10).
  vm_compute. discriminate.
Defined.

(** C6, as stated, fails below [INFLATION_FIX_HEIGHT]: with a spacing of 40
    and a base timespan of 4320 the code's interval is 1080, not half of
    21600 / 40. *)
Lemma V1_interval_counterexample :
  V1_interval sample_constants (sample_params MAIN) 10 = Ret 1080
  /\ V1_interval_halved sample_constants (sample_params MAIN) 10 = 270
  /\ V1_interval sample_constants (sample_params MAIN) 10
     <> Ret (V1_interval_halved sample_constants (sample_params MAIN) 10).
Proof.
  repeat split. vm_compute. discriminate.
Qed.

(** ** The legacy retarget *)

(** Off an interval boundary the previous target is carried forward. *)
Lemma GetNextWorkRequiredV1_carry_forward
    (K : Constants) (P : CChainParams) (last : CBlockIndex) (rest : block_ptr)
    (pblock : CBlockHeader) (algo nInterval : Z) :
  NetworkID P <> TESTNET ->
  V1_interval K P (nHeight last + 1) = Ret nInterval ->
  nInterval <> 0 ->
  Z.rem (nHeight last + 1) nInterval <> 0 ->
  GetNextWorkRequiredV1 K P (last :: rest) pblock algo = Ret (nBits last).
Proof.
  intros Hnet HI HI0 Hrem.
  unfold GetNextWorkRequiredV1. cbn [deref bind]. rewrite HI. cbn [bind].
  destruct (Z.eqb_spec (network_value (NetworkID P)) (network_value TESTNET)) as [E | _].
  { exfalso. apply Hnet, network_value_inj, E. }
  cbn [is_null]. unfold int_mod.
  apply Z.eqb_neq in HI0, Hrem. rewrite HI0. cbn [bind]. rewrite Hrem. reflexivity.
Qed.

Lemma clamp_encode_le (limit bnNew : Z) :
  UInt256.in_range limit -> 0 <= bnNew ->
  0 <= target (SetCompact (GetCompact (if limit <? bnNew then limit else bnNew)))
    <= limit.
Proof.
  intros Hlim Hnew.
  destruct (Z.ltb_spec limit bnNew) as [Hlt | Hge].
  - apply SetCompact_GetCompact_le. exact Hlim.
  - pose proof (SetCompact_GetCompact_le bnNew) as H.
    unfold UInt256.in_range in *. lia.
Qed.

Lemma wrap_nonneg (x : Z) : 0 <= UInt256.wrap x.
Proof. apply wrap_in_range. Qed.

Lemma mul_nonneg (a b : Z) : 0 <= UInt256.mul a b.
Proof. apply wrap_nonneg. Qed.

(** Every value that [GetNextWorkRequiredV1] returns is either the carried
    forward target of the previous block or within the ceiling. *)
Lemma GetNextWorkRequiredV1_cases
    (K : Constants) (P : CChainParams) (last : CBlockIndex) (rest : block_ptr)
    (pblock : CBlockHeader) (algo v : Z) :
  UInt256.in_range (ProofOfWorkLimit P algo) ->
  GetNextWorkRequiredV1 K P (last :: rest) pblock algo = Ret v ->
  (NetworkID P <> TESTNET
   /\ (exists nInterval : Z,
         V1_interval K P (nHeight last + 1) = Ret nInterval
         /\ nInterval <> 0 /\ Z.rem (nHeight last + 1) nInterval <> 0)
   /\ v = nBits last)
  \/ 0 <= target (SetCompact v) <= ProofOfWorkLimit P algo.
Proof.
  intros Hlim H.
  unfold GetNextWorkRequiredV1 in H. cbn [deref bind] in H.
  destruct (V1_interval K P (nHeight last + 1)) as [nInterval | f] eqn:HI;
    cbn [bind] in H; [| discriminate H].
  destruct (Z.eqb_spec (network_value (NetworkID P)) (network_value TESTNET))
    as [Enet | Enet].
  { right. apply Ret_inj in H. subst v. apply SetCompact_GetCompact_le. exact Hlim. }
  cbn [is_null] in H. unfold int_mod in H.
  destruct (Z.eqb_spec nInterval 0) as [E0 | E0]; cbn [bind] in H; [discriminate H |].
  destruct (Z.eqb_spec (Z.rem (nHeight last + 1) nInterval) 0) as [Er | Er];
    cbn [negb] in H.
  - right.
    match type of H with
    | context [is_null ?p] => destruct (is_null p) eqn:Hnull
    end; [discriminate H |].
    match type of H with
    | context [deref ?p] => destruct (deref p) as [first | f]
    end; cbn [bind] in H; [| discriminate H].
    unfold UInt256.div in H.
    match type of H with
    | context [UInt256.of_int64 ?t =? 0] =>
        destruct (Z.eqb_spec (UInt256.of_int64 t) 0) as [Ed | Ed];
        [discriminate H |];
        assert (Hd : 0 < UInt256.of_int64 t)
          by (pose proof (Z.mod_pos_bound t (2 ^ 64) eq_refl);
              unfold UInt256.of_int64 in *; lia)
    end.
    cbn [bind] in H. apply Ret_inj in H. subst v.
    apply clamp_encode_le; [exact Hlim |].
    apply Z.div_pos; [apply mul_nonneg | exact Hd].
  - left. apply Ret_inj in H. subst v.
    split; [| split; [exists nInterval; repeat split; assumption | reflexivity]].
    intros Htest. apply Enet. rewrite Htest. reflexivity.
Qed.

(** ** The averaged retarget *)

Lemma iter_nonneg (f : Z -> Z) (n : nat) (x : Z) :
  (forall y, 0 <= f y) -> 0 <= x -> 0 <= Nat.iter n f x.
Proof.
  intros Hf Hx. destruct n as [| n]; [exact Hx | apply Hf].
Qed.

Lemma tighten_step_nonneg (bnNew : Z) : 0 <= tighten_step bnNew.
Proof. apply mul_nonneg. Qed.

Lemma loosen_step_nonneg (bnNew : Z) : 0 <= loosen_step bnNew.
Proof.
  unfold loosen_step. apply Z.div_pos; [apply mul_nonneg | lia].
Qed.

(** [GetNextWorkRequiredV2] always returns, and what it returns is within
    the ceiling. *)
Lemma GetNextWorkRequiredV2_within_ceiling
    (K : Constants) (P : CChainParams) (pindexLast : block_ptr)
    (pblock : CBlockHeader) (algo : Z) :
  UInt256.in_range (ProofOfWorkLimit P algo) ->
  exists v : Z,
    GetNextWorkRequiredV2 K P pindexLast pblock algo = Ret v
    /\ 0 <= target (SetCompact v) <= ProofOfWorkLimit P algo.
Proof.
  intros Hlim. unfold GetNextWorkRequiredV2.
  destruct (is_null pindexLast) eqn:Hlast.
  { eexists. split; [reflexivity | apply SetCompact_GetCompact_le; exact Hlim]. }
  match goal with
  | |- context [is_null ?a || is_null ?b] =>
      destruct (is_null a) eqn:Halgo; destruct (is_null b) eqn:Hfirst; cbn [orb]
  end;
    try (eexists; split; [reflexivity | apply SetCompact_GetCompact_le; exact Hlim]).
  destruct pindexLast as [| last rest]; [discriminate Hlast |].
  cbn [deref bind].
  match goal with
  | |- context [deref (go_back ?n ?p)] =>
      destruct (go_back n p) as [| first rest1]; [discriminate Hfirst |]
  end.
  match goal with
  | |- context [deref (GetLastBlockIndexForAlgo ?p ?a)] =>
      destruct (GetLastBlockIndexForAlgo p a) as [| prevAlgo rest2];
      [discriminate Halgo |]
  end.
  cbn [deref bind].
  change (UInt256.of_int64 nAveragingTargetTimespan) with 1200.
  unfold UInt256.div. change (1200 =? 0) with false. cbn [bind].
  eexists. split; [reflexivity |].
  apply clamp_encode_le; [exact Hlim |].
  assert (Hglobal : forall a b, 0 <= UInt256.mul a b / 1200)
    by (intros a b; apply Z.div_pos; [apply mul_nonneg | lia]).
  repeat match goal with
  | |- 0 <= (if ?c then _ else _) => destruct c
  | |- 0 <= Nat.iter _ _ _ => apply iter_nonneg
  | |- forall y, 0 <= tighten_step y => exact tighten_step_nonneg
  | |- forall y, 0 <= loosen_step y => exact loosen_step_nonneg
  | |- 0 <= UInt256.mul _ _ / 1200 => apply Hglobal
  end.
Qed.

(** ** Clamping to the ceiling *)

(** C4, as the code has it: the averaged retarget always returns a compact
    target that decodes to at most the ceiling of the algorithm; the legacy
    retarget does so whenever it retargets or falls back, and otherwise
    returns the recorded target of the previous block unchanged. *)
Theorem retarget_within_ceiling
    (K : Constants) (P : CChainParams) (pindexLast : block_ptr)
    (pblock : CBlockHeader) (algo : Z) :
  UInt256.in_range (ProofOfWorkLimit P algo) ->
  (exists v : Z,
      GetNextWorkRequiredV2 K P pindexLast pblock algo = Ret v
      /\ target (SetCompact v) <= ProofOfWorkLimit P algo)
  /\ (forall v : Z,
        GetNextWorkRequiredV1 K P pindexLast pblock algo = Ret v ->
        target (SetCompact v) <= ProofOfWorkLimit P algo
        \/ (exists (last : CBlockIndex) (nInterval : Z),
              deref pindexLast = Ret last
              /\ NetworkID P <> TESTNET
              /\ V1_interval K P (nHeight last + 1) = Ret nInterval
              /\ nInterval <> 0
              /\ Z.rem (nHeight last + 1) nInterval <> 0
              /\ v = nBits last)).
Proof.
  intros Hlim. split.
  - destruct (GetNextWorkRequiredV2_within_ceiling K P pindexLast pblock algo Hlim)
      as (v & Hv & _ & Hle).
    exists v. split; assumption.
  - intros v Hv.
    destruct pindexLast as [| last rest]; [discriminate Hv |].
    destruct (GetNextWorkRequiredV1_cases K P last rest pblock algo v Hlim Hv)
      as [(Hnet & (nInterval & HI & HI0 & Hrem) & Ev) | [_ Hle]].
    + right. exists last, nInterval. repeat split; assumption.
    + left. exact Hle.
Qed.

Lemma retarget_within_ceiling_witness :
  (exists v : Z,
      GetNextWorkRequiredV2 sample_constants (sample_params MAIN)
        (sample_chain 120 2000) sample_header 1 = Ret v
      /\ target (SetCompact v) <= ProofOfWorkLimit (sample_params MAIN) 1)
  /\ (forall v : Z,
        GetNextWorkRequiredV1 sample_constants (sample_params MAIN)
          (sample_chain 120 2000) sample_header 1 = Ret v ->
        target (SetCompact v) <= ProofOfWorkLimit (sample_params MAIN) 1
        \/ (exists (last : CBlockIndex) (nInterval : Z),
              deref (sample_chain 120 2000) = Ret last
              /\ NetworkID (sample_params MAIN) <> TESTNET
              /\ V1_interval sample_constants (sample_params MAIN) (nHeight last + 1)
                 = Ret nInterval
              /\ nInterval <> 0
              /\ Z.rem (nHeight last + 1) nInterval <> 0
              /\ v = nBits last)).
Proof.
  apply (retarget_within_ceiling sample_constants (sample_params MAIN)
           (sample_chain 120 2000) sample_header 1).
  vm_compute. split; [discriminate | reflexivity].
Defined.

(** C4, as stated, fails for the legacy retarget off an interval boundary:
    the recorded target [0x1f00ffff] of the previous block is returned as it
    is, and decodes above the ceiling. *)
Lemma retarget_within_ceiling_counterexample :
  UInt256.in_range (ProofOfWorkLimit (sample_params MAIN) 0)
  /\ GetNextWorkRequiredV1 sample_constants (sample_params MAIN)
       [sample_block 10 0x1f00ffff] sample_header 0 = Ret 0x1f00ffff
  /\ ~ target (SetCompact 0x1f00ffff) <= ProofOfWorkLimit (sample_params MAIN) 0.
Proof.
  split; [vm_compute; split; [discriminate | reflexivity] |].
  split; [vm_compute; reflexivity |].
  vm_compute. intros H. apply H. reflexivity.
Qed.

(** ** Insufficient history *)

Lemma GetNextWorkRequiredV2_fallback
    (K : Constants) (P : CChainParams) (pindexLast : block_ptr)
    (pblock : CBlockHeader) (algo : Z) :
  Z.of_nat (length (pprev pindexLast)) < NUM_ALGOS K * nAveragingInterval
  \/ (forall b, In b pindexLast -> nAlgo b <> algo) ->
  GetNextWorkRequiredV2 K P pindexLast pblock algo =
  Ret (GetCompact (ProofOfWorkLimit P algo)).
Proof.
  intros Hfew. unfold GetNextWorkRequiredV2.
  destruct pindexLast as [| last rest]; [reflexivity |].
  cbn [is_null].
  destruct Hfew as [Hfew | Hnone].
  - assert (Hnull : is_null (go_back (Z.to_nat (NUM_ALGOS K * nAveragingInterval))
                                     (last :: rest)) = true).
    { apply go_back_null. cbn [pprev tl length] in *. lia. }
    rewrite Hnull, orb_true_r. reflexivity.
  - rewrite (GetLastBlockIndexForAlgo_null (last :: rest) algo Hnone).
    reflexivity.
Qed.

Lemma GetNextWorkRequiredV1_assertion
    (K : Constants) (P : CChainParams) (last : CBlockIndex) (rest : block_ptr)
    (pblock : CBlockHeader) (algo nInterval : Z) :
  NetworkID P <> TESTNET ->
  V1_interval K P (nHeight last + 1) = Ret nInterval ->
  nInterval <> 0 ->
  Z.rem (nHeight last + 1) nInterval = 0 ->
  Z.of_nat (length rest)
    < (if nHeight last + 1 =? nInterval then nInterval - 1 else nInterval) ->
  GetNextWorkRequiredV1 K P (last :: rest) pblock algo = Fault AssertionFailure.
Proof.
  intros Hnet HI HI0 Hrem Hfew.
  unfold GetNextWorkRequiredV1. cbn [deref bind]. rewrite HI. cbn [bind].
  destruct (Z.eqb_spec (network_value (NetworkID P)) (network_value TESTNET)) as [E | _].
  { exfalso. apply Hnet, network_value_inj, E. }
  cbn [is_null]. unfold int_mod.
  apply Z.eqb_neq in HI0. rewrite HI0. cbn [bind].
  rewrite Hrem. change (0 =? 0) with true. cbn [negb].
  match goal with
  | |- context [is_null (go_back ?n ?p)] =>
      assert (Hnull : is_null (go_back n p) = true)
  end.
  { apply go_back_null. cbn [length].
    destruct (nHeight last + 1 =? nInterval); cbn [negb]; lia. }
  rewrite Hnull. reflexivity.
Qed.

(** C5, as the code has it: the averaged retarget returns the ceiling of
    the algorithm when fewer than [NUM_ALGOS * 10] ancestors are available
    or no block of the history was mined with the algorithm; the legacy
    retarget, when it fires with fewer ancestors than it walks back, stops
    on its assertion. *)
Theorem insufficient_history
    (K : Constants) (P : CChainParams) (pindexLast : block_ptr)
    (pblock : CBlockHeader) (algo : Z) :
  (Z.of_nat (length (pprev pindexLast)) < NUM_ALGOS K * nAveragingInterval
   \/ (forall b, In b pindexLast -> nAlgo b <> algo) ->
   GetNextWorkRequiredV2 K P pindexLast pblock algo =
   Ret (GetCompact (ProofOfWorkLimit P algo)))
  /\ (forall (last : CBlockIndex) (nInterval : Z),
        deref pindexLast = Ret last ->
        NetworkID P <> TESTNET ->
        V1_interval K P (nHeight last + 1) = Ret nInterval ->
        nInterval <> 0 ->
        Z.rem (nHeight last + 1) nInterval = 0 ->
        Z.of_nat (length (pprev pindexLast))
          < (if nHeight last + 1 =? nInterval then nInterval - 1 else nInterval) ->
        GetNextWorkRequiredV1 K P pindexLast pblock algo = Fault AssertionFailure).
Proof.
  split.
  - apply GetNextWorkRequiredV2_fallback.
  - intros last nInterval Hlast Hnet HI HI0 Hrem Hfew.
    destruct pindexLast as [| b rest]; [discriminate Hlast |].
    cbn [deref] in Hlast. apply Ret_inj in Hlast. subst b.
    apply (GetNextWorkRequiredV1_assertion K P last rest pblock algo nInterval);
      assumption.
Qed.

Lemma insufficient_history_witness :
  GetNextWorkRequiredV2 sample_constants (sample_params MAIN)
    (sample_chain 30 2000) sample_header 0 =
  Ret (GetCompact (ProofOfWorkLimit (sample_params MAIN) 0))
  /\ GetNextWorkRequiredV1 sample_constants (sample_params MAIN)
       (sample_chain 108 215) sample_header 0 = Fault AssertionFailure.
Proof.
  pose proof (insufficient_history sample_constants (sample_params MAIN)
                (sample_chain 30 2000) sample_header 0) as [H2 _].
  pose proof (insufficient_history sample_constants (sample_params MAIN)
                (sample_chain 108 215) sample_header 0) as [_ H1].
  split.
  - apply H2. left. vm_compute. reflexivity.
  - apply (H1 (sample_block 215 0x1d00ffff) 108);
      vm_compute; (reflexivity || discriminate).
Defined.

(** C5, as stated, fails for the legacy retarget: at height 215 with an
    interval of 108 the retarget fires, 107 ancestors are available where
    108 are walked back, and the result is the failed assertion, not the
    ceiling. *)
Lemma insufficient_history_counterexample :
  V1_interval sample_constants (sample_params MAIN) 216 = Ret 108
  /\ Z.rem 216 108 = 0
  /\ length (pprev (sample_chain 108 215)) = 107%nat
  /\ GetNextWorkRequiredV1 sample_constants (sample_params MAIN)
       (sample_chain 108 215) sample_header 0
     <> Ret (GetCompact (ProofOfWorkLimit (sample_params MAIN) 0)).
Proof.
  repeat split. vm_compute. discriminate.
Qed.

(** * Further properties of [pow.cpp] *)



(** ** [CheckProofOfWork] *)

(** A proof of work that a hash meets is met by every smaller hash. *)
Theorem CheckProofOfWork_hash_monotone
    (P : CChainParams) (hash hash' nBits algo : Z) :
  hash' <= hash ->
  CheckProofOfWork P hash nBits algo = true ->
  CheckProofOfWork P hash' nBits algo = true.
Proof.
  intros Hle H.
  apply CheckProofOfWork_true_iff in H. apply CheckProofOfWork_true_iff.
  destruct H as (Hneg & Hovf & Hz & Hlim & Hhash).
  repeat split; try assumption. lia.
Qed.

Lemma CheckProofOfWork_hash_monotone_witness :
  CheckProofOfWork (sample_params MAIN) 5 0x1d00ffff 0 = true.
Proof.
  apply (CheckProofOfWork_hash_monotone (sample_params MAIN) 7 5 0x1d00ffff 0).
  - lia.
  - vm_compute. reflexivity.
Defined.

(** A block that passes [CheckProofOfWork] has a work increment of at least
    one: [GetProofIncrement] does not fall into its zero case. *)
Theorem CheckProofOfWork_positive_increment
    (P : CChainParams) (hash nBits algo : Z) :
  CheckProofOfWork P hash nBits algo = true ->
  exists w : Z, GetProofIncrement nBits = Ret w /\ 1 <= w.
Proof.
  intros H. apply CheckProofOfWork_true_iff in H.
  destruct H as (Hneg & Hovf & Hz & _ & _).
  exists (2 ^ 256 / (target (SetCompact nBits) + 1)).
  split; [apply increment_quotient_valid; assumption |].
  pose proof (SetCompact_target_bound nBits) as [Hlo Hhi].
  unfold UInt256.modulus in Hhi.
  assert (Hpos : 0 < 2 ^ 256 / (target (SetCompact nBits) + 1))
    by (apply Z.div_str_pos; lia).
  lia.
Qed.

Lemma CheckProofOfWork_positive_increment_witness :
  exists w : Z, GetProofIncrement 0x1d00ffff = Ret w /\ 1 <= w.
Proof.
  apply (CheckProofOfWork_positive_increment (sample_params MAIN) 7 0x1d00ffff 0).
  vm_compute. reflexivity.
Defined.

(** ** [CheckMinWork] *)

(** Each round of the loop takes [4 * TargetTimespan] off [deltaTime]: with
    a positive timespan, [fuel] rounds suffice once they cover [deltaTime]. *)
Lemma CheckMinWork_loop_rounds
    (K : Constants) (P : CChainParams) (fuel : nat) (deltaTime bnResult : Z) :
  0 < TargetTimespan P ->
  deltaTime <= TargetTimespan P * 4 * Z.of_nat fuel ->
  exists r : Z, CheckMinWork_loop K P fuel deltaTime bnResult = Some r.
Proof.
  intros Hts. revert deltaTime bnResult.
  induction fuel as [| fuel IH]; intros deltaTime bnResult Hfuel.
  - cbn [CheckMinWork_loop].
    destruct (Z.ltb_spec 0 deltaTime) as [Hpos | _]; [lia |].
    exists bnResult. reflexivity.
  - cbn [CheckMinWork_loop].
    destruct ((0 <? deltaTime) && (bnResult <? bnLimit K)).
    + apply IH. lia.
    + exists bnResult. reflexivity.
Qed.

(** With a positive target timespan the relaxation loop of [CheckMinWork]
    ends: the check answers as soon as the fuel covers
    [deltaTime / (4 * TargetTimespan)] rounds. *)
Theorem CheckMinWork_terminates
    (K : Constants) (P : CChainParams) (fuel : nat) (nBits nBase deltaTime : Z) :
  0 < TargetTimespan P ->
  deltaTime <= TargetTimespan P * 4 * Z.of_nat fuel ->
  exists b : bool, CheckMinWork K P fuel nBits nBase deltaTime = Some b.
Proof.
  intros Hts Hfuel. unfold CheckMinWork.
  destruct (fOverflow (SetCompact nBits)); [eexists; reflexivity |].
  destruct (AllowMinDifficultyBlocks P && (TargetSpacing P * 2 <? deltaTime));
    [eexists; reflexivity |].
  destruct (CheckMinWork_loop_rounds K P fuel deltaTime (target (SetCompact nBase))
              Hts Hfuel) as [r Hr].
  rewrite Hr. eexists. reflexivity.
Qed.

Lemma CheckMinWork_terminates_witness :
  exists b : bool,
    CheckMinWork sample_constants (sample_params MAIN) 2 0x1d00ffff 0x1c00ffff 30000
    = Some b.
Proof.
  apply (CheckMinWork_terminates sample_constants (sample_params MAIN) 2
           0x1d00ffff 0x1c00ffff 30000); vm_compute; (reflexivity || discriminate).
Defined.

(** Without the minimum-difficulty relaxation, [CheckMinWork] accepts no
    compact target that overflows or decodes above the scrypt ceiling,
    however much time has passed. *)
Theorem CheckMinWork_within_ceiling
    (K : Constants) (P : CChainParams) (fuel : nat) (nBits nBase deltaTime : Z) :
  AllowMinDifficultyBlocks P = false ->
  CheckMinWork K P fuel nBits nBase deltaTime = Some true ->
  fOverflow (SetCompact nBits) = false
  /\ target (SetCompact nBits) <= ProofOfWorkLimit P (ALGO_SCRYPT K).
Proof.
  intros Hallow H. unfold CheckMinWork in H. rewrite Hallow in H. cbn [andb] in H.
  destruct (fOverflow (SetCompact nBits)); [discriminate H |].
  split; [reflexivity |].
  destruct (CheckMinWork_loop K P fuel deltaTime (target (SetCompact nBase)))
    as [r |]; [| discriminate H].
  assert (Hle : (target (SetCompact nBits)
                 <=? (if ProofOfWorkLimit P (ALGO_SCRYPT K) <? r
                      then ProofOfWorkLimit P (ALGO_SCRYPT K) else r)) = true)
    by congruence.
  apply Z.leb_le in Hle.
  destruct (Z.ltb_spec (ProofOfWorkLimit P (ALGO_SCRYPT K)) r); lia.
Qed.

Lemma CheckMinWork_within_ceiling_witness :
  fOverflow (SetCompact 0x1c00ffff) = false
  /\ target (SetCompact 0x1c00ffff)
     <= ProofOfWorkLimit (sample_params MAIN) (ALGO_SCRYPT sample_constants).
Proof.
  apply (CheckMinWork_within_ceiling sample_constants (sample_params MAIN) 2
           0x1c00ffff 0x1d00ffff 30000); vm_compute; reflexivity.
Defined.







(** ** The legacy retarget: further properties *)

Lemma V1_timespan_pos (K : Constants) (P : CChainParams) (nHeight' : Z) :
  0 < TargetTimespan P ->
  TargetTimespan P <= V1_timespan K P nHeight' <= TargetTimespan P * 5.
Proof.
  intros Hts. unfold V1_timespan.
  destruct (INFLATION_FIX_HEIGHT K <=? nHeight'); lia.
Qed.

(** With a spacing of at least two seconds that does not exceed the
    timespan, the interval is defined and positive. *)
Lemma V1_interval_pos (K : Constants) (P : CChainParams) (nHeight' : Z) :
  2 <= TargetSpacing P <= TargetTimespan P ->
  exists nInterval : Z, V1_interval K P nHeight' = Ret nInterval /\ 0 < nInterval.
Proof.
  intros [Hsp Hts].
  pose proof (V1_timespan_pos K P nHeight' ltac:(lia)) as Htt.
  unfold V1_interval, int_div.
  assert (Hhalf : 0 < Z.quot (TargetSpacing P) 2) by (apply Z.quot_str_pos; lia).
  assert (Hhalf' : Z.quot (TargetSpacing P) 2 <= TargetSpacing P)
    by (apply Z.quot_le_upper_bound; lia).
  destruct (INFLATION_FIX_HEIGHT K <=? nHeight').
  - destruct (Z.eqb_spec (TargetSpacing P) 0) as [E | _]; [lia |].
    eexists. split; [reflexivity |]. apply Z.quot_str_pos. lia.
  - change (2 =? 0) with false. cbn [bind].
    destruct (Z.eqb_spec (Z.quot (TargetSpacing P) 2) 0) as [E | _]; [lia |].
    eexists. split; [reflexivity |]. apply Z.quot_str_pos. lia.
Qed.

Lemma GetNextWorkRequiredV1_carry_forward_witness :
  GetNextWorkRequiredV1 sample_constants (sample_params MAIN)
    (sample_chain 5 250) sample_header 0 = Ret 0x1d00ffff.
Proof.
  apply (GetNextWorkRequiredV1_carry_forward sample_constants (sample_params MAIN)
           (sample_block 250 0x1d00ffff) (sample_chain 4 249) sample_header 0 108);
    vm_compute; (reflexivity || discriminate).
Defined.

(** On the test network [GetNextWorkRequiredV1] returns the encoded ceiling
    of the algorithm for every non-null previous block, provided the
    interval computation that precedes the test is defined. *)
Theorem GetNextWorkRequiredV1_testnet
    (K : Constants) (P : CChainParams) (last : CBlockIndex) (rest : block_ptr)
    (pblock : CBlockHeader) (algo : Z) :
  NetworkID P = TESTNET ->
  2 <= TargetSpacing P ->
  GetNextWorkRequiredV1 K P (last :: rest) pblock algo =
  Ret (GetCompact (ProofOfWorkLimit P algo)).
Proof.
  intros Hnet Hsp.
  unfold GetNextWorkRequiredV1. cbn [deref bind].
  assert (HI : exists nInterval, V1_interval K P (nHeight last + 1) = Ret nInterval).
  { unfold V1_interval, int_div.
    assert (Hhalf : 0 < Z.quot (TargetSpacing P) 2) by (apply Z.quot_str_pos; lia).
    destruct (INFLATION_FIX_HEIGHT K <=? nHeight last + 1).
    - destruct (Z.eqb_spec (TargetSpacing P) 0) as [E | _]; [lia |].
      eexists. reflexivity.
    - change (2 =? 0) with false. cbn [bind].
      destruct (Z.eqb_spec (Z.quot (TargetSpacing P) 2) 0) as [E | _]; [lia |].
      eexists. reflexivity. }
  destruct HI as [nInterval HI]. rewrite HI. cbn [bind].
  rewrite Hnet. reflexivity.
Qed.

Lemma GetNextWorkRequiredV1_testnet_witness :
  GetNextWorkRequiredV1 sample_constants (sample_params TESTNET)
    (sample_chain 5 250) sample_header 0 =
  Ret (GetCompact (ProofOfWorkLimit (sample_params TESTNET) 0)).
Proof.
  apply (GetNextWorkRequiredV1_testnet sample_constants (sample_params TESTNET)
           (sample_block 250 0x1d00ffff) (sample_chain 4 249) sample_header 0).
  - reflexivity.
  - vm_compute. discriminate.
Defined.

(** A spacing of zero, or of one second below [INFLATION_FIX_HEIGHT] where
    the spacing is halved, makes [GetNextWorkRequiredV1] divide by zero on
    every network, before the test for the test network. *)
Theorem GetNextWorkRequiredV1_zero_spacing
    (K : Constants) (P : CChainParams) (last : CBlockIndex) (rest : block_ptr)
    (pblock : CBlockHeader) (algo : Z) :
  TargetSpacing P = 0
  \/ (nHeight last + 1 < INFLATION_FIX_HEIGHT K /\ TargetSpacing P = 1) ->
  GetNextWorkRequiredV1 K P (last :: rest) pblock algo = Fault DivisionByZero.
Proof.
  intros Hsp.
  unfold GetNextWorkRequiredV1. cbn [deref bind].
  assert (HI : V1_interval K P (nHeight last + 1) = Fault DivisionByZero).
  { unfold V1_interval, int_div.
    destruct (Z.leb_spec (INFLATION_FIX_HEIGHT K) (nHeight last + 1)) as [Hge | Hlt].
    - destruct Hsp as [E | [Hlt _]]; [| lia]. rewrite E. reflexivity.
    - destruct Hsp as [E | [_ E]]; rewrite E; reflexivity. }
  rewrite HI. reflexivity.
Qed.

Lemma GetNextWorkRequiredV1_zero_spacing_witness :
  GetNextWorkRequiredV1 sample_constants
    {| NetworkID := TESTNET; ProofOfWorkLimit := fun _ => sample_limit;
       TargetSpacing := 1; TargetTimespan := 4320;
       AllowMinDifficultyBlocks := true |}
    (sample_chain 5 50) sample_header 0 = Fault DivisionByZero.
Proof.
  apply (GetNextWorkRequiredV1_zero_spacing sample_constants
           {| NetworkID := TESTNET; ProofOfWorkLimit := fun _ => sample_limit;
              TargetSpacing := 1; TargetTimespan := 4320;
              AllowMinDifficultyBlocks := true |}
           (sample_block 50 0x1d00ffff) (sample_chain 4 49) sample_header 0).
  right. split; [vm_compute; reflexivity | reflexivity].
Defined.

(** On a complete chain, where the previous block at height [h] has exactly
    [h] ancestors, the walk back of the retarget stays on the chain: with a
    spacing of at least two and a timespan between the spacing and [2^60],
    [GetNextWorkRequiredV1] returns a compact target and its assertion never
    fails. *)
Theorem GetNextWorkRequiredV1_complete_chain
    (K : Constants) (P : CChainParams) (last : CBlockIndex) (rest : block_ptr)
    (pblock : CBlockHeader) (algo : Z) :
  2 <= TargetSpacing P <= TargetTimespan P ->
  TargetTimespan P < 2 ^ 60 ->
  Z.of_nat (length rest) = nHeight last ->
  exists v : Z, GetNextWorkRequiredV1 K P (last :: rest) pblock algo = Ret v.
Proof.
  intros Hsp Hts Hlen.
  destruct (V1_interval_pos K P (nHeight last + 1) Hsp) as (nInterval & HI & Hpos).
  pose proof (V1_timespan_pos K P (nHeight last + 1) ltac:(lia)) as Htt.
  unfold GetNextWorkRequiredV1. cbn [deref bind]. rewrite HI. cbn [bind].
  destruct (network_value (NetworkID P) =? network_value TESTNET);
    [eexists; reflexivity |].
  cbn [is_null]. unfold int_mod.
  destruct (Z.eqb_spec nInterval 0) as [E | _]; [lia |]. cbn [bind].
  destruct (Z.eqb_spec (Z.rem (nHeight last + 1) nInterval) 0) as [Hrem | _];
    cbn [negb]; [| eexists; reflexivity].
  match goal with
  | |- context [is_null (go_back ?n ?p)] =>
      destruct (is_null (go_back n p)) eqn:Hnull
  end.
  { exfalso. apply go_back_null in Hnull. cbn [length] in Hnull.
    assert (Hh : 0 <= nHeight last) by lia.
    apply Z.rem_divide in Hrem; [| lia]. destruct Hrem as [q Hq].
    destruct (Z.eqb_spec (nHeight last + 1) nInterval) as [E | E];
      cbn [negb] in Hnull.
    - lia.
    - assert (Hq0 : 0 < q) by (apply (Z.mul_pos_cancel_r q nInterval); lia).
      assert (Hq2 : 2 <= q) by (destruct (Z.eq_dec q 1) as [-> | ]; lia).
      assert (Hn : nInterval <= nHeight last) by nia.
      lia. }
  match goal with
  | |- context [deref (go_back ?n ?p)] =>
      destruct (go_back n p) as [| first rest1]; [discriminate Hnull |]
  end.
  cbn [deref bind]. unfold UInt256.div.
  assert (Hd : UInt256.of_int64 (V1_timespan K P (nHeight last + 1))
               = V1_timespan K P (nHeight last + 1)).
  { unfold UInt256.of_int64. apply Z.mod_small. lia. }
  rewrite Hd.
  destruct (Z.eqb_spec (V1_timespan K P (nHeight last + 1)) 0) as [E | _]; [lia |].
  eexists. reflexivity.
Qed.

Lemma GetNextWorkRequiredV1_complete_chain_witness :
  exists v : Z,
    GetNextWorkRequiredV1 sample_constants (sample_params MAIN)
      (sample_chain 216 215) sample_header 0 = Ret v.
Proof.
  apply (GetNextWorkRequiredV1_complete_chain sample_constants (sample_params MAIN)
           (sample_block 215 0x1d00ffff) (sample_chain 215 214) sample_header 0);
    vm_compute; (reflexivity || (split; discriminate)).
Defined.

(** Scaling a target by [c / tt] in 256-bit arithmetic never yields more
    than the exact ratio allows. *)
Lemma scaled_target_le (old c tt num den : Z) :
  0 <= old -> 0 < tt -> 0 < den -> 0 <= c -> c * den <= tt * num ->
  den * (UInt256.mul old c / tt) <= num * old.
Proof.
  intros Hold Htt Hden Hc Hratio.
  assert (Hw : UInt256.mul old c <= old * c)
    by (apply wrap_le; apply Z.mul_nonneg_nonneg; assumption).
  assert (Hq : UInt256.mul old c / tt * tt <= UInt256.mul old c)
    by (rewrite Z.mul_comm; apply Z.mul_div_le; exact Htt).
  assert (Hq0 : 0 <= UInt256.mul old c / tt)
    by (apply Z.div_pos; [apply mul_nonneg | exact Htt]).
  set (q := UInt256.mul old c / tt) in *. clearbody q.
  set (w := UInt256.mul old c) in *. clearbody w.
  apply Z.mul_le_mono_pos_r with tt; [exact Htt |].
  apply Z.le_trans with (den * (old * c)); [nia |].
  replace (den * (old * c)) with (old * (c * den)) by ring.
  replace (num * old * tt) with (old * (tt * num)) by ring.
  apply Z.mul_le_mono_nonneg_l; assumption.
Qed.

(** When the legacy retarget fires, the new target is at most four times
    the recorded target of the previous block; at most twice from
    [DIFF_SWITCH_HEIGHT] on; and at most 75/60 of it from
    [DIFF2_SWITCH_HEIGHT] on. *)
Theorem GetNextWorkRequiredV1_step_bound
    (K : Constants) (P : CChainParams) (last : CBlockIndex) (rest : block_ptr)
    (pblock : CBlockHeader) (algo nInterval v : Z) :
  0 < TargetTimespan P < 2 ^ 59 ->
  UInt256.in_range (ProofOfWorkLimit P algo) ->
  NetworkID P <> TESTNET ->
  V1_interval K P (nHeight last + 1) = Ret nInterval ->
  nInterval <> 0 ->
  Z.rem (nHeight last + 1) nInterval = 0 ->
  GetNextWorkRequiredV1 K P (last :: rest) pblock algo = Ret v ->
  let old := target (SetCompact (nBits last)) in
  target (SetCompact v) <= 4 * old
  /\ (DIFF_SWITCH_HEIGHT K <= nHeight last + 1 -> target (SetCompact v) <= 2 * old)
  /\ (DIFF2_SWITCH_HEIGHT K <= nHeight last + 1 ->
      60 * target (SetCompact v) <= 75 * old).
Proof.
  intros Hts Hlim Hnet HI HI0 Hrem H old.
  pose proof (V1_timespan_pos K P (nHeight last + 1) ltac:(lia)) as Htt.
  pose proof (SetCompact_target_bound (nBits last)) as [Hold _]. fold old in Hold.
  unfold GetNextWorkRequiredV1 in H. cbn [deref bind] in H.
  rewrite HI in H. cbn [bind] in H.
  destruct (Z.eqb_spec (network_value (NetworkID P)) (network_value TESTNET)) as [E | _].
  { exfalso. apply Hnet, network_value_inj, E. }
  cbn [is_null] in H. unfold int_mod in H.
  apply Z.eqb_neq in HI0. rewrite HI0 in H. cbn [bind] in H.
  rewrite Hrem in H. change (0 =? 0) with true in H. cbn [negb] in H.
  match type of H with
  | context [is_null ?p] => destruct (is_null p) eqn:Hnull
  end; [discriminate H |].
  match type of H with
  | context [deref ?p] => destruct (deref p) as [first | f]
  end; cbn [bind] in H; [| discriminate H].
  set (tt := V1_timespan K P (nHeight last + 1)) in *.
  assert (Hd : UInt256.of_int64 tt = tt)
    by (unfold UInt256.of_int64; apply Z.mod_small; lia).
  fold old in H. rewrite Hd in H.
  unfold UInt256.div in H.
  destruct (Z.eqb_spec tt 0) as [E | _]; [lia |]. cbn [bind] in H.
  apply Ret_inj in H.
  match type of H with
  | GetCompact (if _ <? UInt256.mul old (UInt256.of_int64 ?c) / tt then _ else _) = v =>
      set (clamped := c) in *
  end.
  set (bnNew := UInt256.mul old (UInt256.of_int64 clamped) / tt) in *.
  assert (Hnew0 : 0 <= bnNew)
    by (apply Z.div_pos; [apply mul_nonneg | lia]).
  assert (Hv : target (SetCompact v) <= bnNew).
  { subst v.
    pose proof (clamp_encode_le (ProofOfWorkLimit P algo) bnNew Hlim Hnew0) as Hc.
    destruct (Z.ltb_spec (ProofOfWorkLimit P algo) bnNew) as [Hlt | Hge].
    - lia.
    - pose proof (SetCompact_GetCompact_le bnNew) as Hx.
      unfold UInt256.in_range in *. lia. }
  assert (Hq2 : 0 <= Z.quot tt 2) by (apply Z.quot_pos; lia).
  assert (Hq4 : 0 <= Z.quot tt 4) by (apply Z.quot_pos; lia).
  assert (Hq2' : Z.quot tt 2 <= tt) by (apply Z.quot_le_upper_bound; lia).
  assert (Hq4' : Z.quot tt 4 <= tt) by (apply Z.quot_le_upper_bound; lia).
  assert (H75 : 0 <= Z.quot (tt * 75) 60 /\ 60 * Z.quot (tt * 75) 60 <= tt * 75).
  { split; [apply Z.quot_pos; lia |]. apply Z.mul_quot_le; lia. }
  assert (H55 : 0 <= Z.quot (tt * 55) 73 <= tt).
  { split; [apply Z.quot_pos; lia |]. apply Z.quot_le_upper_bound; lia. }
  assert (Hbounds :
    0 <= clamped <= 4 * tt
    /\ (DIFF_SWITCH_HEIGHT K <= nHeight last + 1 -> clamped <= 2 * tt)
    /\ (DIFF2_SWITCH_HEIGHT K <= nHeight last + 1 -> 60 * clamped <= 75 * tt)).
  { subst clamped.
    destruct (Z.leb_spec (DIFF_SWITCH_HEIGHT K) (nHeight last + 1));
      destruct (Z.leb_spec (DIFF2_SWITCH_HEIGHT K) (nHeight last + 1));
      repeat match goal with
             | |- context [?a <? ?b] => destruct (Z.ltb_spec a b)
             end; lia. }
  destruct Hbounds as ([Hc0 Hc4] & Hc2 & Hc75).
  assert (Hof : UInt256.of_int64 clamped = clamped)
    by (unfold UInt256.of_int64; apply Z.mod_small; lia).
  unfold bnNew in Hv. rewrite Hof in Hv.
  split; [| split].
  - pose proof (scaled_target_le old clamped tt 4 1 Hold ltac:(lia) ltac:(lia) Hc0
                  ltac:(lia)). lia.
  - intros Hsw.
    pose proof (scaled_target_le old clamped tt 2 1 Hold ltac:(lia) ltac:(lia) Hc0
                  ltac:(specialize (Hc2 Hsw); lia)). lia.
  - intros Hsw.
    pose proof (scaled_target_le old clamped tt 75 60 Hold ltac:(lia) ltac:(lia) Hc0
                  ltac:(specialize (Hc75 Hsw); lia)). lia.
Qed.

Lemma GetNextWorkRequiredV1_step_bound_witness :
  let old := target (SetCompact (nBits (sample_block 215 0x1d00ffff))) in
  target (SetCompact 0x1d00ffff) <= 4 * old
  /\ (DIFF_SWITCH_HEIGHT sample_constants <= nHeight (sample_block 215 0x1d00ffff) + 1 ->
      target (SetCompact 0x1d00ffff) <= 2 * old)
  /\ (DIFF2_SWITCH_HEIGHT sample_constants <= nHeight (sample_block 215 0x1d00ffff) + 1 ->
      60 * target (SetCompact 0x1d00ffff) <= 75 * old).
Proof.
  apply (GetNextWorkRequiredV1_step_bound sample_constants (sample_params MAIN)
           (sample_block 215 0x1d00ffff) (sample_chain 215 214) sample_header 0 108
           0x1d00ffff);
    vm_compute; (reflexivity || discriminate || (split; (reflexivity || discriminate))).
Defined.

(** ** The averaged retarget: further properties *)

(** The shape of an encoded target: a mantissa below [2^23], a size of at
    most 33 bytes, and a shift that does not exceed the value. *)
Lemma GetCompact_parts (x : Z) :
  UInt256.in_range x ->
  exists c n : Z,
    GetCompact x = Z.lor c (Z.shiftl n 24)
    /\ 0 <= c < 2 ^ 24 /\ 0 <= n < 256
    /\ Z.testbit c 23 = false
    /\ (3 < n -> c * 2 ^ (8 * (n - 3)) <= x).
Proof.
  intros Hx. pose proof Hx as [Hx0 Hx1].
  pose proof (byte_size_le_32 x Hx) as Hn.
  pose proof (byte_size_upper x Hx0) as Hup.
  unfold GetCompact.
  set (n := (UInt256.bits x + 7) / 8) in *.
  pose proof (leading_bytes_range x n (conj Hx0 Hup) (proj1 Hn)) as Hc.
  set (c := if n <=? 3 then Z.shiftl x (8 * (3 - n)) else Z.shiftr x (8 * (n - 3))) in *.
  destruct (Z.testbit c 23) eqn:Hbit.
  - exists (Z.shiftr c 8), (n + 1).
    assert (Hc' : 0 <= Z.shiftr c 8 < 2 ^ 16).
    { rewrite Z.shiftr_div_pow2 by lia. split; [apply Z.div_pos; lia |].
      apply Z.div_lt_upper_bound; lia. }
    split; [reflexivity |]. split; [lia |]. split; [lia |]. split.
    + rewrite Z.shiftr_spec by lia. apply testbit_above; [exact Hc | lia].
    + intros Hgt. rewrite Z.shiftr_div_pow2 by lia. subst c.
      destruct (Z.leb_spec n 3) as [Hle | Hgt'].
      * assert (n = 3) as -> by lia.
        change (8 * (3 - 3)) with 0. rewrite Z.shiftl_0_r.
        change (8 * (3 + 1 - 3)) with 8.
        apply (round_down_le x 8); lia.
      * rewrite Z.shiftr_div_pow2 by lia.
        rewrite Z.div_div by (try apply Z.pow_pos_nonneg; lia).
        rewrite <- Z.pow_add_r by lia.
        replace (8 * (n - 3) + 8) with (8 * (n + 1 - 3)) by lia.
        apply (round_down_le x (8 * (n + 1 - 3))); lia.
  - exists c, n.
    split; [reflexivity |]. split; [exact Hc |]. split; [lia |].
    split; [exact Hbit |].
    intros Hgt. subst c.
    destruct (Z.leb_spec n 3) as [Hle | _]; [lia |].
    rewrite Z.shiftr_div_pow2 by lia.
    apply (round_down_le x (8 * (n - 3))); lia.
Qed.

(** An encoded 256-bit target decodes without the negative flag and without
    the overflow flag. *)
Lemma GetCompact_flags (x : Z) :
  UInt256.in_range x ->
  fNegative (SetCompact (GetCompact x)) = false
  /\ fOverflow (SetCompact (GetCompact x)) = false.
Proof.
  intros Hx.
  destruct (GetCompact_parts x Hx) as (c & n & E & Hc & Hn & Hbit & Hshift).
  rewrite E. split.
  - change (fNegative (SetCompact (Z.lor c (Z.shiftl n 24))))
      with (Z.testbit (Z.lor c (Z.shiftl n 24)) 23).
    rewrite Z.lor_spec, Hbit, Z.shiftl_spec_low by lia. reflexivity.
  - rewrite SetCompact_fOverflow.
    rewrite compact_exponent_pack, compact_mantissa_pack by assumption.
    destruct (Z.ltb_spec 3 n) as [Hgt | _]; [| reflexivity].
    cbn [andb]. apply Z.leb_gt.
    rewrite Z.shiftl_mul_pow2 by lia.
    specialize (Hshift Hgt). destruct Hx as [_ Hx1]. lia.
Qed.

(** What [GetNextWorkRequiredV2] returns is the encoding of a 256-bit value
    within the ceiling. *)
Lemma GetNextWorkRequiredV2_encoded
    (K : Constants) (P : CChainParams) (pindexLast : block_ptr)
    (pblock : CBlockHeader) (algo : Z) :
  UInt256.in_range (ProofOfWorkLimit P algo) ->
  exists x : Z,
    GetNextWorkRequiredV2 K P pindexLast pblock algo = Ret (GetCompact x)
    /\ 0 <= x <= ProofOfWorkLimit P algo.
Proof.
  intros Hlim. pose proof Hlim as [Hlim0 _]. unfold GetNextWorkRequiredV2.
  destruct (is_null pindexLast) eqn:Hlast.
  { eexists. split; [reflexivity | lia]. }
  match goal with
  | |- context [is_null ?a || is_null ?b] =>
      destruct (is_null a) eqn:Halgo; destruct (is_null b) eqn:Hfirst; cbn [orb]
  end;
    try (eexists; split; [reflexivity | lia]).
  destruct pindexLast as [| last rest]; [discriminate Hlast |].
  cbn [deref bind].
  match goal with
  | |- context [deref (go_back ?n ?p)] =>
      destruct (go_back n p) as [| first rest1]; [discriminate Hfirst |]
  end.
  match goal with
  | |- context [deref (GetLastBlockIndexForAlgo ?p ?a)] =>
      destruct (GetLastBlockIndexForAlgo p a) as [| prevAlgo rest2];
      [discriminate Halgo |]
  end.
  cbn [deref bind].
  change (UInt256.of_int64 nAveragingTargetTimespan) with 1200.
  unfold UInt256.div. change (1200 =? 0) with false. cbn [bind].
  eexists. split; [reflexivity |].
  match goal with
  | |- 0 <= (if ?l <? ?y then _ else _) <= _ =>
      assert (Hy : 0 <= y); [| destruct (Z.ltb_spec l y); lia]
  end.
  assert (Hglobal : forall a b, 0 <= UInt256.mul a b / 1200)
    by (intros a b; apply Z.div_pos; [apply mul_nonneg | lia]).
  repeat match goal with
  | |- 0 <= (if ?c then _ else _) => destruct c
  | |- 0 <= Nat.iter _ _ _ => apply iter_nonneg
  | |- forall y, 0 <= tighten_step y => exact tighten_step_nonneg
  | |- forall y, 0 <= loosen_step y => exact loosen_step_nonneg
  | |- 0 <= UInt256.mul _ _ / 1200 => apply Hglobal
  end.
Qed.

(** The compact target that [GetNextWorkRequiredV2] returns is one that
    [CheckProofOfWork] admits: unless it decodes to zero, every hash at or
    below its target passes the check for the same algorithm. *)
Theorem GetNextWorkRequiredV2_admitted
    (K : Constants) (P : CChainParams) (pindexLast : block_ptr)
    (pblock : CBlockHeader) (algo hash v : Z) :
  UInt256.in_range (ProofOfWorkLimit P algo) ->
  GetNextWorkRequiredV2 K P pindexLast pblock algo = Ret v ->
  target (SetCompact v) <> 0 ->
  hash <= target (SetCompact v) ->
  CheckProofOfWork P hash v algo = true.
Proof.
  intros Hlim Hv Hz Hhash.
  destruct (GetNextWorkRequiredV2_encoded K P pindexLast pblock algo Hlim)
    as (x & Hx & Hx0 & Hxl).
  rewrite Hx in Hv. apply Ret_inj in Hv. subst v.
  assert (Hxr : UInt256.in_range x)
    by (destruct Hlim; unfold UInt256.in_range; lia).
  destruct (GetCompact_flags x Hxr) as [Hneg Hovf].
  pose proof (SetCompact_GetCompact_le x Hxr) as [_ Hle].
  apply CheckProofOfWork_true_iff.
  repeat split; try assumption. lia.
Qed.

Lemma GetNextWorkRequiredV2_admitted_witness :
  CheckProofOfWork (sample_params MAIN) 12345 486586074 1 = true.
Proof.
  apply (GetNextWorkRequiredV2_admitted sample_constants (sample_params MAIN)
           (sample_chain 31 2000) sample_header 1 12345 486586074);
    vm_compute; (reflexivity || discriminate || (split; (reflexivity || discriminate))).
Defined.

Lemma tighten_step_le (bnNew : Z) : 0 <= bnNew -> tighten_step bnNew <= bnNew.
Proof.
  intros Hb. unfold tighten_step.
  change (UInt256.of_int64 (100 + nLocalDifficultyAdjustment)) with 140.
  assert (Hq : 0 <= bnNew / 140) by (apply Z.div_pos; lia).
  apply Z.le_trans with (bnNew / 140 * 100).
  - apply wrap_le. lia.
  - pose proof (Z.mul_div_le bnNew 140 ltac:(lia)). lia.
Qed.

Lemma iter_tighten_le (n : nat) (bnNew : Z) :
  0 <= bnNew -> 0 <= Nat.iter n tighten_step bnNew <= bnNew.
Proof.
  intros Hb. induction n as [| n IH]; cbn [Nat.iter nat_rect]; [lia |].
  fold (Nat.iter n tighten_step bnNew).
  pose proof (tighten_step_nonneg (Nat.iter n tighten_step bnNew)).
  pose proof (tighten_step_le (Nat.iter n tighten_step bnNew) ltac:(lia)).
  lia.
Qed.

(** When the last block of the algorithm lies within the last
    [NUM_ALGOS - 1] heights, so that the per-algorithm correction can only
    tighten, one call of [GetNextWorkRequiredV2] raises the target of the
    algorithm by at most 40 percent: five times the new target is at most
    seven times the recorded one. *)
Theorem GetNextWorkRequiredV2_easing_bound
    (K : Constants) (P : CChainParams) (pindexLast : block_ptr)
    (pblock : CBlockHeader) (algo v : Z)
    (last prevAlgo : CBlockIndex) (rest2 : block_ptr) :
  UInt256.in_range (ProofOfWorkLimit P algo) ->
  deref pindexLast = Ret last ->
  (Z.to_nat (NUM_ALGOS K * nAveragingInterval) < length pindexLast)%nat ->
  GetLastBlockIndexForAlgo pindexLast algo = prevAlgo :: rest2 ->
  nHeight last - nHeight prevAlgo <= NUM_ALGOS K - 1 ->
  GetNextWorkRequiredV2 K P pindexLast pblock algo = Ret v ->
  5 * target (SetCompact v) <= 7 * target (SetCompact (nBits prevAlgo)).
Proof.
  intros Hlim Hlast Hlen Halgo Hadj H.
  destruct pindexLast as [| last0 rest]; [discriminate Hlast |].
  cbn [deref] in Hlast. apply Ret_inj in Hlast. subst last0.
  unfold GetNextWorkRequiredV2 in H. cbn [is_null] in H.
  rewrite Halgo in H. cbn [is_null orb] in H.
  match type of H with
  | context [is_null (go_back ?n ?p)] =>
      destruct (is_null (go_back n p)) eqn:Hnull;
      [apply go_back_null in Hnull; lia |];
      destruct (go_back n p) as [| first rest1]; [discriminate Hnull |]
  end.
  cbn [deref bind] in H.
  change (UInt256.of_int64 nAveragingTargetTimespan) with 1200 in H.
  unfold UInt256.div in H. change (1200 =? 0) with false in H. cbn [bind] in H.
  apply Ret_inj in H.
  set (old := target (SetCompact (nBits prevAlgo))) in *.
  pose proof (SetCompact_target_bound (nBits prevAlgo)) as [Hold _]. fold old in Hold.
  match type of H with
  | context [UInt256.mul old (UInt256.of_int64 ?c) / 1200] => set (clamped := c) in *
  end.
  assert (Hc : 960 <= clamped <= 1680).
  { subst clamped.
    change nMinActualTimespan with 960. change nMaxActualTimespan with 1680.
    repeat match goal with
           | |- context [?a <? ?b] => destruct (Z.ltb_spec a b)
           end; lia. }
  assert (Hof : UInt256.of_int64 clamped = clamped)
    by (unfold UInt256.of_int64; apply Z.mod_small; lia).
  rewrite Hof in H.
  set (bnNew := UInt256.mul old clamped / 1200) in *.
  assert (Hnew0 : 0 <= bnNew) by (apply Z.div_pos; [apply mul_nonneg | lia]).
  pose proof (scaled_target_le old clamped 1200 7 5 Hold ltac:(lia) ltac:(lia)
                ltac:(lia) ltac:(lia)) as Hscale.
  fold bnNew in Hscale.
  set (nAdjustments := nHeight prevAlgo - nHeight last + NUM_ALGOS K - 1) in *.
  destruct (Z.ltb_spec nAdjustments 0) as [Hneg | _]; [unfold nAdjustments in Hneg; lia |].
  match type of H with
  | GetCompact (if _ <? ?y then _ else _) = v =>
      assert (Hy : 0 <= y <= bnNew)
        by (destruct (0 <? nAdjustments); [apply iter_tighten_le; exact Hnew0 | lia]);
      set (corrected := y) in *
  end.
  subst v.
  pose proof (clamp_encode_le (ProofOfWorkLimit P algo) corrected Hlim ltac:(lia)) as Hc1.
  destruct (Z.ltb_spec (ProofOfWorkLimit P algo) corrected) as [Hlt | Hge].
  - lia.
  - pose proof (SetCompact_GetCompact_le corrected) as Hx.
    destruct Hlim. unfold UInt256.in_range in Hx. lia.
Qed.

Lemma GetNextWorkRequiredV2_easing_bound_witness :
  5 * target (SetCompact 486586074)
  <= 7 * target (SetCompact (nBits (sample_block 1999 0x1d00ffff))).
Proof.
  apply (GetNextWorkRequiredV2_easing_bound sample_constants (sample_params MAIN)
           (sample_chain 31 2000) sample_header 1 486586074
           (sample_block 2000 0x1d00ffff) (sample_block 1999 0x1d00ffff)
           (sample_chain 29 1998));
    vm_compute; (reflexivity || discriminate || lia
                 || (split; (reflexivity || discriminate))).
Defined.

(** ** The dispatcher and [UpdateTime] *)

Lemma GetNextWorkRequired_main_witness :
  GetNextWorkRequired sample_constants (sample_params MAIN)
    (sample_chain 31 2000) sample_header 1 =
  if nHeight (sample_block 2000 0x1d00ffff) <? V3_FORK sample_constants
  then GetNextWorkRequiredV1 sample_constants (sample_params MAIN)
         (sample_chain 31 2000) sample_header 1
  else GetNextWorkRequiredV2 sample_constants (sample_params MAIN)
         (sample_chain 31 2000) sample_header 1.
Proof.
  apply (GetNextWorkRequired_main sample_constants (sample_params MAIN)
           (sample_block 2000 0x1d00ffff) (sample_chain 30 1999) sample_header 1).
  reflexivity.
Defined.

(** Off the test network, [UpdateTime] leaves the target and the algorithm
    of the header as they are and sets its time to the larger of the
    adjusted time and one second past the median time of the previous
    block, for times that fit the 32-bit field: the new time is strictly
    after the median time past and not before the adjusted time. *)
Theorem UpdateTime_time
    (K : Constants) (P : CChainParams) (nAdjustedTime : Z) (block : CBlockHeader)
    (prev : CBlockIndex) (rest : block_ptr) :
  NetworkID P <> TESTNET ->
  0 <= nMedianTimePast prev -> nMedianTimePast prev + 1 < 2 ^ 32 ->
  nAdjustedTime < 2 ^ 32 ->
  exists block' : CBlockHeader,
    UpdateTime K P nAdjustedTime block (prev :: rest) = Ret block'
    /\ hdr_nTime block' = Z.max (nMedianTimePast prev + 1) nAdjustedTime
    /\ nMedianTimePast prev < hdr_nTime block'
    /\ nAdjustedTime <= hdr_nTime block'
    /\ hdr_nBits block' = hdr_nBits block
    /\ hdr_nAlgo block' = hdr_nAlgo block.
Proof.
  intros Hnet Hmtp0 Hmtp Hnow.
  unfold UpdateTime. cbn [deref bind].
  destruct (Z.eqb_spec (network_value (NetworkID P)) (network_value TESTNET)) as [E | _].
  { exfalso. apply Hnet, network_value_inj, E. }
  eexists. split; [reflexivity |]. cbn [hdr_nTime hdr_nBits hdr_nAlgo].
  unfold GetMedianTimePast.
  rewrite Z.mod_small by lia.
  repeat split; lia.
Qed.

Lemma UpdateTime_time_witness :
  exists block' : CBlockHeader,
    UpdateTime sample_constants (sample_params MAIN) 90000 sample_header
      (sample_chain 3 2000) = Ret block'
    /\ hdr_nTime block'
       = Z.max (nMedianTimePast (sample_block 2000 0x1d00ffff) + 1) 90000
    /\ nMedianTimePast (sample_block 2000 0x1d00ffff) < hdr_nTime block'
    /\ 90000 <= hdr_nTime block'
    /\ hdr_nBits block' = hdr_nBits sample_header
    /\ hdr_nAlgo block' = hdr_nAlgo sample_header.
Proof.
  apply (UpdateTime_time sample_constants (sample_params MAIN) 90000 sample_header
           (sample_block 2000 0x1d00ffff) (sample_chain 2 1999));
    vm_compute; (reflexivity || discriminate).
Defined.

(** On the test network [UpdateTime] replaces the target of the header by
    the fixed compact target [0x1d13ffec] of the dispatcher, whatever the
    header held and whatever the history, and keeps its algorithm. *)
Theorem UpdateTime_testnet
    (K : Constants) (P : CChainParams) (nAdjustedTime : Z) (block : CBlockHeader)
    (prev : CBlockIndex) (rest : block_ptr) :
  NetworkID P = TESTNET ->
  exists block' : CBlockHeader,
    UpdateTime K P nAdjustedTime block (prev :: rest) = Ret block'
    /\ hdr_nBits block' = 0x1d13ffec
    /\ hdr_nAlgo block' = hdr_nAlgo block.
Proof.
  intros Hnet. unfold UpdateTime. cbn [deref bind].
  rewrite Hnet. change (network_value TESTNET =? network_value TESTNET) with true.
  cbv iota.
  rewrite GetNextWorkRequired_testnet by exact Hnet. cbn [bind].
  eexists. split; [reflexivity |]. split; reflexivity.
Qed.

Lemma UpdateTime_testnet_witness :
  exists block' : CBlockHeader,
    UpdateTime sample_constants (sample_params TESTNET) 90000 sample_header
      (sample_chain 3 2000) = Ret block'
    /\ hdr_nBits block' = 0x1d13ffec
    /\ hdr_nAlgo block' = hdr_nAlgo sample_header.
Proof.
  apply (UpdateTime_testnet sample_constants (sample_params TESTNET) 90000
           sample_header (sample_block 2000 0x1d00ffff) (sample_chain 2 1999)).
  reflexivity.
Defined.
